(** * circuits: non-blocking File component and the idle fall-back generator

    A shallow embedding of [circuits/io/file.py] (class [File]) and of
    [circuits/core/helpers.py] (class [FallBackGenerator]), with the
    properties their specification states about them.

    The component's attributes, the manager's event queue and the bytes the
    operating system accepted are one record; methods are computations in a
    state-and-exception monad, so a Python [raise] that nothing catches is a
    [Raised] result and the attribute writes made before it are kept. *)

From Stdlib Require Import ZArith Ascii String List.
From stdpp Require Import base option list gmap strings.

Local Open Scope Z_scope.

(** ** The File component ([circuits/io/file.py]) *)
Module File.

Definition bytes : Type := list Byte.byte.

(** [errno] values the module imports, with their Linux numbers. *)
Definition EPIPE : Z := 32.
Definition ENOTCONN : Z := 107.
Definition EWOULDBLOCK : Z := 11.

Definition BUFSIZE : nat := 4096.

(** Exceptions the modelled code can meet.  [SocketError] is [socket.error],
    the class of the failures of [os.write] and of [read]. *)
Inductive exn : Type :=
  | AttributeError (attr : string)
  | ValueError
  | SocketError (errno : Z).

(** Events of [circuits/io/events.py] that the component fires.  [Read] is
    fired with [notify] set, which is the manager's business. *)
Inductive event : Type :=
  | Ready
  | Opened (filename mode : string)
  | Read (data : bytes)
  | EOF
  | Error (e : exn)
  | Close
  | Closed.

Definition is_Closed (e : event) : bool :=
  match e with Closed => true | _ => false end.

(** A Python file object: its descriptor number and its [closed] attribute. *)
Record file_obj : Type := mkFile { fno : nat; fclosed : bool }.

(** The methods of a file object that take no argument and return nothing,
    looked up by name as Python does; a name that is not a method of the
    object has no entry. *)
Definition file_method (name : string) : option (file_obj -> file_obj) :=
  if String.eqb name "close" then Some (fun f => mkFile (fno f) true)
  else None.

(** Modelled from the spec: the Poller of [circuits/core/pollers.py], which
    is not among the sources.  Its contract is [addReader], [addWriter],
    [removeWriter], [isWriting] and [discard] over a registered descriptor;
    a descriptor is the object handed over, [None] or a file known by its
    number. *)
Record poller : Type := mkPoller {
  readers : gset (option nat);
  writers : gset (option nat)
}.

Definition Poller : poller := mkPoller ∅ ∅.

Definition key (fd : option file_obj) : option nat := fno <$> fd.

Definition addReader (fd : option file_obj) (p : poller) : poller :=
  mkPoller ({[ key fd ]} ∪ readers p) (writers p).

Definition addWriter (fd : option file_obj) (p : poller) : poller :=
  mkPoller (readers p) ({[ key fd ]} ∪ writers p).

Definition removeWriter (fd : option file_obj) (p : poller) : poller :=
  mkPoller (readers p) (writers p ∖ {[ key fd ]}).

Definition isWriting (fd : option file_obj) (p : poller) : bool :=
  bool_decide (key fd ∈ writers p).

Definition isReading (fd : option file_obj) (p : poller) : bool :=
  bool_decide (key fd ∈ readers p).

Definition discard (fd : option file_obj) (p : poller) : poller :=
  mkPoller (readers p ∖ {[ key fd ]}) (writers p ∖ {[ key fd ]}).

(** The attributes [init] sets ([_connected] is first assigned by
    [_close]), then the manager's queue of fired events and the bytes the
    operating system has accepted for the descriptor. *)
Record state : Type := mkState {
  _mode : string;
  _bufsize : nat;
  _filename : string;
  _fd : option file_obj;
  _poller : option poller;
  _buffer : list bytes;
  _closeflag : bool;
  _connected : option bool;
  fired : list event;
  sink : bytes
}.

Definition set_fd (v : option file_obj) (s : state) : state :=
  mkState (_mode s) (_bufsize s) (_filename s) v (_poller s) (_buffer s)
          (_closeflag s) (_connected s) (fired s) (sink s).
Definition set_poller (v : option poller) (s : state) : state :=
  mkState (_mode s) (_bufsize s) (_filename s) (_fd s) v (_buffer s)
          (_closeflag s) (_connected s) (fired s) (sink s).
Definition set_buffer (v : list bytes) (s : state) : state :=
  mkState (_mode s) (_bufsize s) (_filename s) (_fd s) (_poller s) v
          (_closeflag s) (_connected s) (fired s) (sink s).
Definition set_closeflag (v : bool) (s : state) : state :=
  mkState (_mode s) (_bufsize s) (_filename s) (_fd s) (_poller s) (_buffer s)
          v (_connected s) (fired s) (sink s).
Definition set_connected (v : option bool) (s : state) : state :=
  mkState (_mode s) (_bufsize s) (_filename s) (_fd s) (_poller s) (_buffer s)
          (_closeflag s) v (fired s) (sink s).
Definition set_fired (v : list event) (s : state) : state :=
  mkState (_mode s) (_bufsize s) (_filename s) (_fd s) (_poller s) (_buffer s)
          (_closeflag s) (_connected s) v (sink s).
Definition set_sink (v : bytes) (s : state) : state :=
  mkState (_mode s) (_bufsize s) (_filename s) (_fd s) (_poller s) (_buffer s)
          (_closeflag s) (_connected s) (fired s) v.

(** *** The monad of methods *)

Inductive result (A : Type) : Type :=
  | Ok (a : A)
  | Raised (e : exn).
Arguments Ok {A} a.
Arguments Raised {A} e.

Definition M (A : Type) : Type := state -> result A * state.

Definition ret {A : Type} (a : A) : M A := fun s => (Ok a, s).

Definition bind {A B : Type} (m : M A) (f : A -> M B) : M B := fun s =>
  match m s with
  | (Ok a, s') => f a s'
  | (Raised e, s') => (Raised e, s')
  end.

Declare Scope M_scope.
Delimit Scope M_scope with M.
Notation "x ← y ; z" := (bind y (fun x => z))
  (at level 20, y at level 100, z at level 200, only parsing) : M_scope.
Notation "x ;; z" := (bind x (fun _ => z))
  (at level 100, z at level 200, only parsing, right associativity) : M_scope.
Local Open Scope M_scope.

Definition raise {A : Type} (e : exn) : M A := fun s => (Raised e, s).
Definition gets {A : Type} (f : state -> A) : M A := fun s => (Ok (f s), s).
Definition modify (f : state -> state) : M unit := fun s => (Ok tt, f s).

(** [try: body except: pass], the bare [except] that catches everything. *)
Definition try_pass (body : M unit) : M unit := fun s =>
  match body s with
  | (Ok a, s') => (Ok a, s')
  | (Raised _, s') => (Ok tt, s')
  end.

(** [try: body except SocketError as e: handler e]; any other exception
    goes on to the caller. *)
Definition try_SocketError (body : M unit) (handler : Z -> M unit) : M unit :=
  fun s =>
    match body s with
    | (Raised (SocketError errno), s') => handler errno s'
    | other => other
    end.

(** [self.fire(e)]: the event is appended to the manager's queue. *)
Definition fire (e : event) : M unit :=
  modify (fun s => set_fired (fired s ++ [e]) s).

(** [self._fd.<attr>] and [self._poller.<attr>]: on [None] the attribute
    lookup raises. *)
Definition the_fd (attr : string) : M file_obj := fun s =>
  match _fd s with
  | Some f => (Ok f, s)
  | None => (Raised (AttributeError attr), s)
  end.

Definition the_poller (attr : string) : M poller := fun s =>
  match _poller s with
  | Some p => (Ok p, s)
  | None => (Raised (AttributeError attr), s)
  end.

(** *** What the operating system answers

    [os.write] has room for [nbytes] bytes, takes that prefix of the chunk
    and returns its length, or fails with an [errno]; [read] finds some
    bytes available (none at the end of the stream) or fails; [open] yields
    a descriptor or fails.  The answer is an argument of the method that
    makes the call. *)
Inductive write_outcome : Type :=
  | Wrote (nbytes : nat)
  | WriteFault (errno : Z).

Inductive read_outcome : Type :=
  | Available (data : bytes)
  | ReadFault (errno : Z).

Inductive open_outcome : Type :=
  | OpenedAs (fileno : nat)
  | OpenFault (errno : Z).

(** [f.fileno()] and [f.read(n)] refuse a closed file with [ValueError]. *)
Definition fileno (f : file_obj) : M nat :=
  if fclosed f then raise ValueError else ret (fno f).

Definition os_write (o : write_outcome) (fileno : nat) (data : bytes) : M nat :=
  match o with
  | Wrote nbytes =>
      modify (fun s => set_sink (sink s ++ take nbytes data) s);;
      ret (Nat.min nbytes (length data))
  | WriteFault errno => raise (SocketError errno)
  end.

Definition fd_read (o : read_outcome) (f : file_obj) (n : nat) : M bytes :=
  if fclosed f then raise ValueError
  else match o with
       | Available data => ret (take n data)
       | ReadFault errno => raise (SocketError errno)
       end.

(** [self._fd.<name>()] for a method without arguments. *)
Definition call_fd (name : string) : M unit :=
  f ← the_fd name;
  match file_method name with
  | Some m => modify (set_fd (Some (m f)))
  | None => raise (AttributeError name)
  end.

(** *** The methods of [File] *)

Definition init (filename mode : string) (bufsize : nat) : state :=
  mkState mode bufsize filename None None [] false None [] [].

(** The property [closed]; [hasattr(self, "_fd")] holds once [init] ran. *)
Definition closed : M bool :=
  f ← the_fd "closed"; ret (fclosed f).

Fixpoint contains (c : Ascii.ascii) (s : string) : bool :=
  match s with
  | EmptyString => false
  | String c' s' => Ascii.eqb c c' || contains c s'
  end.

(** [_on_ready]: the switch of the descriptor to non-blocking mode is the
    operating system's business and leaves the attributes alone. *)
Definition _on_ready (o : open_outcome) : M unit :=
  match o with
  | OpenFault errno => raise (SocketError errno)
  | OpenedAs n =>
      modify (set_fd (Some (mkFile n false)));;
      mode ← gets _mode;
      (if contains "r"%char mode || contains "+"%char mode
       then p ← the_poller "addReader";
            fd ← gets _fd;
            modify (set_poller (Some (addReader fd p)))
       else ret tt);;
      filename ← gets _filename;
      fire (Opened filename mode)
  end.

(** [_on_started] binds a poller of its own when [_on_registered], which
    searches the component tree, has found none. *)
Definition _on_started : M unit :=
  p ← gets _poller;
  match p with
  | None => modify (set_poller (Some Poller));; fire Ready
  | Some _ => ret tt
  end.

Definition _on_stopped : M unit := fire Close.

Definition _close : M unit :=
  c ← closed;
  if c then ret tt
  else
    p ← the_poller "discard";
    fd ← gets _fd;
    modify (set_poller (Some (discard fd p)));;
    modify (set_buffer []);;
    modify (set_closeflag false);;
    modify (set_connected (Some false));;
    try_pass (call_fd "cllse");;
    fire Closed.

Definition _on_prepare_unregister (in_subtree : bool) : M unit :=
  if in_subtree then _close else ret tt.

Definition close : M unit :=
  b ← gets _buffer;
  match b with
  | [] => _close
  | _ :: _ =>
      cf ← gets _closeflag;
      if negb cf then modify (set_closeflag true) else ret tt
  end.

Definition _read (o : read_outcome) : M unit :=
  try_SocketError
    (f ← the_fd "read";
     n ← gets _bufsize;
     data ← fd_read o f n;
     match data with
     | _ :: _ => fire (Read data)
     | [] => fire EOF;; close
     end)
    (fun errno =>
       if errno =? EWOULDBLOCK then ret tt
       else fire (Error (SocketError errno));; _close).

Definition _write (data : bytes) (o : write_outcome) : M unit :=
  try_SocketError
    (f ← the_fd "fileno";
     n ← fileno f;
     nbytes ← os_write o n data;
     if (nbytes <? length data)%nat
     then modify (fun s => set_buffer (drop nbytes data :: _buffer s) s)
     else ret tt)
    (fun errno =>
       if (errno =? EPIPE) || (errno =? ENOTCONN) then _close
       else fire (Error (SocketError errno))).

Definition write (data : bytes) : M unit :=
  p ← the_poller "isWriting";
  fd ← gets _fd;
  (if negb (isWriting fd p)
   then modify (set_poller (Some (addWriter fd p)))
   else ret tt);;
  modify (fun s => set_buffer (_buffer s ++ [data]) s).

Definition __on_disconnect : M unit := _close.

Definition __on_read (o : read_outcome) : M unit := _read o.

Definition __on_write (o : write_outcome) : M unit :=
  b ← gets _buffer;
  match b with
  | data :: rest => modify (set_buffer rest);; _write data o
  | [] => ret tt
  end;;
  b ← gets _buffer;
  match b with
  | [] =>
      cf ← gets _closeflag;
      if cf then _close
      else
        p ← the_poller "isWriting";
        fd ← gets _fd;
        if isWriting fd p
        then modify (set_poller (Some (removeWriter fd p)))
        else ret tt
  | _ :: _ => ret tt
  end.

(** *** Operations on a component, and runs of them

    What the application calls ([write], [close]) and what the manager
    delivers: readiness notifications with the operating system's answer,
    and the lifecycle events that end in [_close]. *)
Inductive op : Type :=
  | call_write (data : bytes)
  | call_close
  | ev_write (o : write_outcome)
  | ev_read (o : read_outcome)
  | ev_disconnect
  | ev_prepare_unregister (in_subtree : bool)
  | ev_stopped.

Definition exec (o : op) : M unit :=
  match o with
  | call_write data => write data
  | call_close => close
  | ev_write o => __on_write o
  | ev_read o => __on_read o
  | ev_disconnect => __on_disconnect
  | ev_prepare_unregister b => _on_prepare_unregister b
  | ev_stopped => _on_stopped
  end.

Fixpoint run (ops : list op) : M unit :=
  match ops with
  | [] => ret tt
  | o :: ops' => exec o;; run ops'
  end.

(** The run keeps only submissions and successful (possibly partial)
    writes. *)
Definition wr_only (o : op) : bool :=
  match o with
  | call_write _ | ev_write (Wrote _) => true
  | _ => false
  end.

(** The chunks a run submits, in order. *)
Definition submitted (ops : list op) : list bytes :=
  omap (fun o => match o with call_write c => Some c | _ => None end) ops.

(** Writer notifications in which the sink takes [ns] bytes in turn. *)
Definition notifications (ns : list nat) : list op :=
  map (fun n => ev_write (Wrote n)) ns.

(** *** Observations *)

(** The descriptor is open and a poller is bound: the component is between
    [_on_ready] and the release of its descriptor. *)
Definition opened (s : state) : bool :=
  match _fd s, _poller s with
  | Some f, Some _ => negb (fclosed f)
  | _, _ => false
  end.

Definition writing (s : state) : bool :=
  match _poller s with
  | Some p => isWriting (_fd s) p
  | None => false
  end.

Definition reading (s : state) : bool :=
  match _poller s with
  | Some p => isReading (_fd s) p
  | None => false
  end.

(** Writer registration and a non-empty buffer go together. *)
Definition lockstep (s : state) : Prop :=
  _buffer s <> [] <-> writing s = true.

(** Bytes and chunks still queued: what a drain has left to do. *)
Definition pending (s : state) : nat :=
  (length (concat (_buffer s)) + length (_buffer s))%nat.

(** The state [_close] leaves behind when the file object is not closed. *)
Definition after_close (s : state) : state :=
  set_fired (fired s ++ [Closed])
    (set_connected (Some false)
       (set_closeflag false
          (set_buffer [] (set_poller (discard (_fd s) <$> _poller s) s)))).

(** The state after a write attempt on [data] with answer [o]. *)
Definition after_write (data : bytes) (o : write_outcome) (s : state) : state :=
  match o with
  | Wrote n =>
      let s1 := set_sink (sink s ++ take n data) s in
      if (n <? length data)%nat
      then set_buffer (drop n data :: _buffer s) s1
      else s1
  | WriteFault e =>
      if (e =? EPIPE) || (e =? ENOTCONN) then after_close s
      else set_fired (fired s ++ [Error (SocketError e)]) s
  end.

(** The end of [__on_write]: with nothing left, close if asked to, else
    stop being a writer. *)
Definition settle (s : state) : state :=
  match _buffer s with
  | [] =>
      if _closeflag s then after_close s
      else if writing s
           then set_poller (removeWriter (_fd s) <$> _poller s) s
           else s
  | _ :: _ => s
  end.

(** A freshly opened component: [init], then [_on_started] binds a poller,
    then [_on_ready] opens the descriptor as number [n]. *)
Definition fresh (filename mode : string) (n : nat) : state :=
  snd ((_on_started;; _on_ready (OpenedAs n)) (init filename mode BUFSIZE)).

Definition b (s : string) : bytes := list_byte_of_string s.

(** The state after a read attempt with answer [o]. *)
Definition after_read (o : read_outcome) (s : state) : state :=
  match o with
  | Available data =>
      match take (_bufsize s) data with
      | [] =>
          let s1 := set_fired (fired s ++ [EOF]) s in
          match _buffer s with
          | [] => after_close s1
          | _ :: _ => set_closeflag true s1
          end
      | d => set_fired (fired s ++ [Read d]) s
      end
  | ReadFault e =>
      if e =? EWOULDBLOCK then s
      else after_close (set_fired (fired s ++ [Error (SocketError e)]) s)
  end.

(** *** States the operations leave, in closed form *)

(** The state an operation leaves on an open component. *)
Definition after (o : op) (s : state) : state :=
  match o with
  | call_write c =>
      set_buffer (_buffer s ++ [c])
        (if writing s then s
         else set_poller (addWriter (_fd s) <$> _poller s) s)
  | call_close =>
      match _buffer s with
      | [] => after_close s
      | _ :: _ => set_closeflag true s
      end
  | ev_write o =>
      settle (match _buffer s with
              | [] => s
              | c :: rest => after_write c o (set_buffer rest s)
              end)
  | ev_read o => after_read o s
  | ev_disconnect => after_close s
  | ev_prepare_unregister in_subtree =>
      if in_subtree then after_close s else s
  | ev_stopped => set_fired (fired s ++ [Close]) s
  end.

Definition afters (ops : list op) (s : state) : state :=
  fold_left (fun t o => after o t) ops s.

(** The errnos of a peer that is gone, as [_write] tests them. *)
Definition peer_gone (errno : Z) : bool :=
  (errno =? EPIPE) || (errno =? ENOTCONN).

(** Components to try the methods on: one chunk pending, two chunks
    pending, a close requested with one chunk pending, and a component
    closed once. *)
Definition one_pending : state :=
  snd (run [call_write (b "ab")] (fresh "f" "r+" 3)).

Definition two_pending : state :=
  snd (run [call_write (b "ab"); call_write (b "cd")] (fresh "f" "r+" 3)).

Definition closing : state :=
  snd (run [call_write (b "ab"); call_close] (fresh "f" "r+" 3)).

Definition closed_once : state :=
  snd (close (fresh "f" "r" 3)).

(** What a drain towards a requested close looks like from outside: still
    draining, nothing fired and nothing lost, or closed with everything
    delivered. *)
Definition draining (total : bytes) (evs : list event) (t : state) : Prop :=
  _closeflag t = true /\ _buffer t <> [] /\ fired t = evs
  /\ sink t ++ concat (_buffer t) = total.

Definition drained (total : bytes) (evs : list event) (t : state) : Prop :=
  _closeflag t = false /\ _buffer t = [] /\ fired t = evs ++ [Closed]
  /\ sink t = total /\ writing t = false.

(** *** Binding the poller

    [_on_registered] is told which component was registered: a poller, the
    File itself, or something else.  For itself it searches the tree,
    [findcmp(self.root, BasePoller)]; what the search finds is an
    argument. *)
Inductive component : Type :=
  | itself
  | a_poller (p : poller)
  | another.

Definition _on_registered (component : component) (found : option poller)
  : M unit :=
  p ← gets _poller;
  match p with
  | Some _ => ret tt
  | None =>
      match component with
      | a_poller q => modify (set_poller (Some q));; fire Ready
      | another => ret tt
      | itself =>
          match found with
          | Some q => modify (set_poller (Some q));; fire Ready
          | None => modify (set_poller (Some Poller));; fire Ready
          end
      end
  end.

(** The events that come before [Ready] is handled. *)
Inductive startup : Type :=
  | ev_registered (c : component) (found : option poller)
  | ev_started.

Definition exec_startup (e : startup) : M unit :=
  match e with
  | ev_registered c found => _on_registered c found
  | ev_started => _on_started
  end.

Fixpoint run_startup (es : list startup) : M unit :=
  match es with
  | [] => ret tt
  | e :: es' => exec_startup e;; run_startup es'
  end.

(** [self._poller is not None]. *)
Definition bound (s : state) : bool :=
  match _poller s with Some _ => true | None => false end.

(** The test of [_on_ready] on the mode. *)
Definition readable (mode : string) : bool :=
  contains "r"%char mode || contains "+"%char mode.

End File.

(** ** The idle fall-back generator ([circuits/core/helpers.py])

    [FallBackGenerator._on_generate_events] runs on the loop thread while
    other threads call [resume] and lower the event's [time_left].  The
    handler is a transition system whose control points are the places where
    it reads or waits on shared state; a run interleaves its steps with the
    actions of the other threads and with the passing of time.  Time is
    counted in whole units of the timeout of [Event.wait], seconds. *)
Module FallBackGenerator.

(** Where the handler stands. *)
Inductive pc : Type :=
  | Entry                  (* before [with event.lock] *)
  | Branch                 (* before [if event.time_left > 0] *)
  | CallWait               (* before [self._continue.wait(event.time_left)] *)
  | BoundedWait (remaining : Z) (* inside it, [remaining] before the timeout *)
  | Normalize              (* before [event.reduce_time_left(0)] *)
  | Loop                   (* before [while event.time_left < 0] *)
  | SliceWait (remaining : Z)   (* inside [self._continue.wait(10000)] *)
  | Returned (handled : bool).

(** The wake signal [self._continue], the event's [time_left], and what an
    observer sees of the run: the timeouts handed to [wait], in order, and
    the time that has passed. *)
Record state : Type := mkState {
  at_pc : pc;
  _continue : bool;
  time_left : Z;
  waits : list Z;
  clock : Z
}.

(** Modelled from the spec: [GenerateEvents.reduce_time_left] of
    [circuits/core/events.py], which is not among the sources.  [time_left]
    is signed, 0 immediate, positive a bounded wait, negative unbounded;
    responders lower it to their minimum, and [reduce_time_left(0)]
    normalizes it to 0. *)
Definition reduce_time_left (t : Z) (current : Z) : Z :=
  if (0 <=? t) && ((current <? 0) || (t <? current)) then t else current.

(** What the other threads and the clock do. *)
Inductive env_action : Type :=
  | tick
  | call_resume
  | call_reduce (t : Z).

Inductive action : Type :=
  | step
  | env (a : env_action).

(** [resume]: [self._continue.set()]. *)
Definition resume (s : state) : state :=
  mkState (at_pc s) true (time_left s) (waits s) (clock s).

(** [Event.wait(timeout)] from inside: it returns once the flag is set or
    the timeout has run out, and blocks until then. *)
Definition wait_over (s : state) (remaining : Z) : bool :=
  _continue s || (remaining <=? 0).

(** One step of [_on_generate_events].  The block under [event.lock] is one
    step: [resume] takes no lock, but it only sets the flag that the block
    clears, so a call in the middle of the block is a call before it. *)
Definition _on_generate_events (s : state) : state :=
  match at_pc s with
  | Entry =>
      if time_left s =? 0
      then mkState (Returned true) (_continue s) (time_left s) (waits s) (clock s)
      else mkState Branch false (time_left s) (waits s) (clock s)
  | Branch =>
      if 0 <? time_left s
      then mkState CallWait (_continue s) (time_left s) (waits s) (clock s)
      else mkState Loop (_continue s) (time_left s) (waits s) (clock s)
  | CallWait =>
      mkState (BoundedWait (time_left s)) (_continue s) (time_left s)
              (waits s ++ [time_left s]) (clock s)
  | BoundedWait remaining =>
      if wait_over s remaining
      then mkState Normalize (_continue s) (time_left s) (waits s) (clock s)
      else s
  | Normalize =>
      mkState (Returned true) (_continue s)
              (reduce_time_left 0 (time_left s)) (waits s) (clock s)
  | Loop =>
      if time_left s <? 0
      then mkState (SliceWait 10000) (_continue s) (time_left s)
                   (waits s ++ [10000]) (clock s)
      else mkState (Returned true) (_continue s) (time_left s) (waits s) (clock s)
  | SliceWait remaining =>
      if wait_over s remaining
      then mkState Loop (_continue s) (time_left s) (waits s) (clock s)
      else s
  | Returned r => s
  end.

(** A second passes: a wait in progress is a second closer to its timeout. *)
Definition pass (s : state) : state :=
  let p := match at_pc s with
           | BoundedWait remaining => BoundedWait (remaining - 1)
           | SliceWait remaining => SliceWait (remaining - 1)
           | p => p
           end in
  mkState p (_continue s) (time_left s) (waits s) (clock s + 1).

Definition act (a : action) (s : state) : state :=
  match a with
  | step => _on_generate_events s
  | env tick => pass s
  | env call_resume => resume s
  | env (call_reduce t) =>
      mkState (at_pc s) (_continue s) (reduce_time_left t (time_left s))
              (waits s) (clock s)
  end.

Definition run (acts : list action) (s : state) : state :=
  fold_left (fun t a => act a t) acts s.

(** The handler is invoked with [event.time_left = t]. *)
Definition start (t : Z) (flag : bool) : state := mkState Entry flag t [] 0.

(** The seconds that pass in a run of the other threads. *)
Fixpoint ticks (e : list env_action) : Z :=
  match e with
  | [] => 0
  | tick :: e' => 1 + ticks e'
  | _ :: e' => ticks e'
  end.

(** The other threads leave [time_left] alone. *)
Definition quiet (a : action) : bool :=
  match a with
  | env (call_reduce _) => false
  | _ => true
  end.

Definition has_returned (s : state) : bool :=
  match at_pc s with Returned _ => true | _ => false end.

(** With [time_left] negative and untouched, the handler is at one of the
    points of its loop and has only ever waited with timeout 10000. *)
Definition in_loop (tl : Z) (s : state) : Prop :=
  time_left s = tl
  /\ match at_pc s with
     | Entry | Branch | Loop | SliceWait _ => True
     | _ => False
     end
  /\ Forall (eq 10000) (waits s).

(** What holds of the handler wherever it stands: the timeouts it has
    handed to [wait] are not negative, the one it is about to hand over is
    not either, and what it has answered, if anything, is [True]. *)
Definition sound (s : state) : Prop :=
  Forall (fun w => 0 <= w) (waits s)
  /\ (at_pc s = CallWait -> 0 <= time_left s)
  /\ (forall r, at_pc s = Returned r -> r = true).

End FallBackGenerator.

(** ** The fall-back error handler ([circuits/core/helpers.py])

    [FallBackErrorHandler._on_error] writes one text to [sys.stderr], here
    the list of the texts written so far.  [error_type] and [value] come as
    the strings that [%s] makes of them, the lines of the traceback as they
    are, and the handler, when there is one, as the text that
    [reprhandler] of [circuits/core/handlers.py] gives for it. *)
Module FallBackErrorHandler.

(** The line feed of ["\n"]. *)
Definition nl : string := String (ascii_of_nat 10) EmptyString.

Definition _on_error (error_type value : string) (traceback : list string)
    (handler : option string) (stderr : list string) : list string :=
  let s := [] in
  let handler := match handler with
                 | None => EmptyString
                 | Some repr => repr
                 end in
  let msg :=
    String.append "ERROR "
      (String.append handler
         (String.append " ("
            (String.append error_type
               (String.append "): " (String.append value nl))))) in
  let s := s ++ [msg] in
  let s := s ++ traceback in
  let s := s ++ [nl] in
  stderr ++ [String.concat EmptyString s].

End FallBackErrorHandler.

(** ** Properties of the File component *)
Module FileProps.
Import File.
Local Open Scope M_scope.

(** *** Each method on an open component, in closed form *)

Ltac open_state s H :=
  destruct s as [md bs fn [[fdn [|]]|] [pl|] buf cf conn evs sk];
  cbn in H; try discriminate H.

Ltac unfold_M :=
  cbv beta iota zeta delta
    [bind ret gets modify raise try_pass try_SocketError fire the_fd the_poller
     fileno os_write fd_read closed _close close _read _write write
     __on_write __on_read __on_disconnect _on_prepare_unregister _on_stopped
     after_close after_write after_read settle writing reading opened
     set_fd set_poller set_buffer set_closeflag set_connected set_fired set_sink
     _mode _bufsize _filename _fd _poller _buffer _closeflag _connected fired sink
     fno fclosed fmap option_fmap option_map].

Ltac unfold_M_in H :=
  cbv beta iota zeta delta
    [bind ret gets modify raise try_pass try_SocketError fire the_fd the_poller
     fileno os_write fd_read closed _close close _read _write write
     __on_write __on_read __on_disconnect _on_prepare_unregister _on_stopped
     after_close after_write after_read settle writing reading opened
     set_fd set_poller set_buffer set_closeflag set_connected set_fired set_sink
     _mode _bufsize _filename _fd _poller _buffer _closeflag _connected fired sink
     fno fclosed fmap option_fmap option_map] in H.

Lemma _close_opened s :
  opened s = true -> _close s = (Ok tt, after_close s).
Proof. intros H. open_state s H. reflexivity. Qed.

Lemma _close_closed s f :
  _fd s = Some f -> fclosed f = true -> _close s = (Ok tt, s).
Proof.
  destruct s as [md bs fn fd pl buf cf conn evs sk]; cbn.
  intros -> Hc. unfold _close, closed, bind, the_fd, ret; cbn. now rewrite Hc.
Qed.

Lemma close_opened s :
  opened s = true ->
  close s = (Ok tt, match _buffer s with
                    | [] => after_close s
                    | _ :: _ => set_closeflag true s
                    end).
Proof. intros H. open_state s H. destruct buf, cf; reflexivity. Qed.

Lemma _write_opened s c o :
  opened s = true -> _write c o s = (Ok tt, after_write c o s).
Proof.
  intros H. open_state s H. destruct o as [n|e]; unfold_M.
  - destruct (Nat.ltb_spec n (length c)).
    + rewrite Nat.min_l by lia.
      destruct (Nat.ltb_spec n (length c)); [reflexivity | lia].
    + rewrite Nat.min_r by lia. now rewrite Nat.ltb_irrefl.
  - destruct ((e =? EPIPE) || (e =? ENOTCONN)); reflexivity.
Qed.

Lemma write_opened s c :
  opened s = true ->
  write c s =
    (Ok tt, set_buffer (_buffer s ++ [c])
              (if writing s then s
               else set_poller (addWriter (_fd s) <$> _poller s) s)).
Proof.
  intros H. open_state s H. unfold_M.
  destruct (isWriting _ _); reflexivity.
Qed.

Lemma _read_opened s o :
  opened s = true -> _read o s = (Ok tt, after_read o s).
Proof.
  intros H. open_state s H. destruct o as [data|e]; unfold_M.
  - destruct (take bs data); [destruct buf, cf|]; reflexivity.
  - destruct (e =? EWOULDBLOCK); reflexivity.
Qed.

Lemma opened_after_close s : opened (after_close s) = opened s.
Proof. destruct s as [md bs fn [f|] [pl|] buf cf conn evs sk]; reflexivity. Qed.

Lemma opened_after_write c o s : opened (after_write c o s) = opened s.
Proof.
  destruct o as [n|e]; unfold after_write.
  - cbv zeta. destruct (n <? length c)%nat; reflexivity.
  - destruct ((e =? EPIPE) || (e =? ENOTCONN));
      [apply opened_after_close | reflexivity].
Qed.

Lemma opened_settle s : opened (settle s) = opened s.
Proof.
  unfold settle. destruct (_buffer s); [|reflexivity].
  destruct (_closeflag s); [apply opened_after_close|].
  destruct (writing s); [|reflexivity].
  destruct s as [md bs fn [f|] [pl|] buf cf conn evs sk]; reflexivity.
Qed.

Lemma opened_after_read o s : opened (after_read o s) = opened s.
Proof.
  destruct o as [data|e]; unfold after_read.
  - cbv zeta. destruct (take _ data); [|reflexivity].
    destruct (_buffer s); [now rewrite opened_after_close | reflexivity].
  - destruct (e =? EWOULDBLOCK); [reflexivity | now rewrite opened_after_close].
Qed.

Lemma bind_ok {A B : Type} (m : M A) (f : A -> M B) s a s' :
  m s = (Ok a, s') -> bind m f s = f a s'.
Proof. unfold bind. now intros ->. Qed.

Lemma on_write_opened s o :
  opened s = true ->
  __on_write o s =
    (Ok tt, settle (match _buffer s with
                    | [] => s
                    | c :: rest => after_write c o (set_buffer rest s)
                    end)).
Proof.
  intros H. unfold __on_write.
  erewrite bind_ok; [|reflexivity].
  match goal with |- bind _ ?k _ = _ => set (tail := k) end.
  assert (Htail : forall t, opened t = true -> tail tt t = (Ok tt, settle t)).
  { intros t Ht. subst tail. open_state t Ht. unfold_M.
    destruct buf; [|reflexivity].
    destruct cf; [reflexivity|]. destruct (isWriting _ _); reflexivity. }
  destruct (_buffer s) as [|c rest] eqn:Hb.
  - erewrite bind_ok; [|reflexivity]. now apply Htail.
  - assert (Ho : opened (set_buffer rest s) = true) by (now open_state s H).
    erewrite bind_ok.
    2:{ erewrite bind_ok; [|reflexivity]. now apply _write_opened. }
    apply Htail. now rewrite opened_after_write.
Qed.

Lemma exec_opened s o :
  opened s = true ->
  exec o s = (Ok tt, after o s) /\ opened (after o s) = true.
Proof.
  intros H. destruct o as [c| |o|o| |[|]|]; cbn [exec after].
  - split; [now apply write_opened|].
    open_state s H. unfold writing; cbn. now destruct (isWriting _ _).
  - split; [now apply close_opened|].
    destruct (_buffer s) eqn:Hb; [now rewrite opened_after_close|].
    clear Hb. open_state s H. reflexivity.
  - split; [now apply on_write_opened|].
    rewrite opened_settle. destruct (_buffer s); [assumption|].
    rewrite opened_after_write. open_state s H. reflexivity.
  - split; [now apply _read_opened | now rewrite opened_after_read].
  - split; [now apply _close_opened | now rewrite opened_after_close].
  - split; [now apply _close_opened | now rewrite opened_after_close].
  - now split.
  - split; [reflexivity | open_state s H; reflexivity].
Qed.

Lemma run_opened s ops :
  opened s = true ->
  exists s', run ops s = (Ok tt, s') /\ opened s' = true
             /\ s' = afters ops s.
Proof.
  unfold afters.
  revert s. induction ops as [|o ops IH]; intros s H; cbn [run fold_left].
  - now exists s.
  - destruct (exec_opened s o H) as [He Ho].
    destruct (IH _ Ho) as (s' & Hr & Ho' & Hs').
    exists s'. split; [|now split]. now rewrite (bind_ok _ _ _ _ _ He).
Qed.

(** *** Writer registration *)

Lemma not_writing_discard fd p : isWriting fd (discard fd p) = false.
Proof.
  apply bool_decide_eq_false. cbn.
  apply not_elem_of_difference. right. now apply elem_of_singleton_2.
Qed.

Lemma not_writing_removeWriter fd p : isWriting fd (removeWriter fd p) = false.
Proof.
  apply bool_decide_eq_false. cbn.
  apply not_elem_of_difference. right. now apply elem_of_singleton_2.
Qed.

Lemma writing_addWriter fd p : isWriting fd (addWriter fd p) = true.
Proof.
  apply bool_decide_eq_true. cbn.
  now apply elem_of_union_l, elem_of_singleton_2.
Qed.

Lemma not_reading_discard fd p : isReading fd (discard fd p) = false.
Proof.
  apply bool_decide_eq_false. cbn.
  apply not_elem_of_difference. right. now apply elem_of_singleton_2.
Qed.

Lemma writing_removed s :
  writing (set_poller (removeWriter (_fd s) <$> _poller s) s) = false.
Proof.
  destruct s as [md bs fn fd [pl|] buf cf conn evs sk];
    [apply not_writing_removeWriter | reflexivity].
Qed.

Lemma writing_after_close s : writing (after_close s) = false.
Proof.
  destruct s as [md bs fn fd [pl|] buf cf conn evs sk]; cbn; [|reflexivity].
  apply not_writing_discard.
Qed.

Lemma reading_after_close s : reading (after_close s) = false.
Proof.
  destruct s as [md bs fn fd [pl|] buf cf conn evs sk]; cbn; [|reflexivity].
  apply not_reading_discard.
Qed.

Lemma lockstep_after_close s : lockstep (after_close s).
Proof.
  unfold lockstep. rewrite writing_after_close. cbn. split; [tauto | discriminate].
Qed.

Lemma writing_after_write c o s :
  writing s = true ->
  _buffer (after_write c o s) <> [] -> writing (after_write c o s) = true.
Proof.
  intros Hw. destruct o as [n|e]; unfold after_write; cbv zeta.
  - destruct (n <? length c)%nat; intros _; exact Hw.
  - destruct ((e =? EPIPE) || (e =? ENOTCONN)); [now cbn | intros _; exact Hw].
Qed.

Lemma lockstep_settle t :
  (_buffer t <> [] -> writing t = true) -> lockstep (settle t).
Proof.
  intros Hw. unfold settle. destruct (_buffer t) as [|c rest] eqn:Hb.
  - destruct (_closeflag t); [apply lockstep_after_close|].
    destruct (writing t) eqn:Hwt.
    + unfold lockstep. rewrite writing_removed.
      split; [intros Hn; exfalso; apply Hn; exact Hb | discriminate].
    + unfold lockstep. rewrite Hb, Hwt. split; [tauto | discriminate].
  - unfold lockstep. rewrite Hb. split; [intros _; apply Hw; discriminate | discriminate].
Qed.

Lemma lockstep_after s o :
  opened s = true -> lockstep s -> lockstep (after o s).
Proof.
  intros H L. destruct o as [c| |o|o| |[|]|]; cbn [after].
  - unfold lockstep. split; [intros _|intros _; cbn; now destruct (_buffer s)].
    destruct (writing s) eqn:Hw; [exact Hw|].
    open_state s H. cbn. apply writing_addWriter.
  - destruct (_buffer s) eqn:Hb; [apply lockstep_after_close | exact L].
  - apply lockstep_settle. destruct (_buffer s) as [|c rest] eqn:Hb.
    + rewrite Hb. tauto.
    + apply writing_after_write. apply L. now rewrite Hb.
  - destruct o as [data|e]; unfold after_read; cbv zeta.
    + destruct (take _ data); [|exact L].
      destruct (_buffer s) eqn:Hb; [apply lockstep_after_close | exact L].
    + destruct (e =? EWOULDBLOCK); [exact L | apply lockstep_after_close].
  - apply lockstep_after_close.
  - apply lockstep_after_close.
  - exact L.
  - exact L.
Qed.

(** C4: on an open component the pending writes are non-empty exactly when
    the component is registered as a writer with its poller, and every
    operation keeps it so: after any run of operations from a state where
    the two agree they still agree.  [write] leaves both a non-empty
    buffer and the registration, and a writer notification that leaves
    the buffer empty leaves the component unregistered. *)
Theorem lockstep_preserved (s : state) (ops : list op) :
  opened s = true -> lockstep s ->
  (exists s', run ops s = (Ok tt, s') /\ opened s' = true /\ lockstep s')
  /\ (forall c, exists s',
        write c s = (Ok tt, s') /\ _buffer s' <> [] /\ writing s' = true)
  /\ (forall o, exists s',
        __on_write o s = (Ok tt, s')
        /\ (_buffer s' = [] -> writing s' = false)).
Proof.
  intros H L. split; [|split].
  - revert s H L. induction ops as [|o ops IH]; intros s H L; cbn [run].
    + now exists s.
    + destruct (exec_opened s o H) as [He Ho].
      destruct (IH _ Ho (lockstep_after s o H L)) as (s' & Hr & Hs').
      exists s'. split; [|exact Hs']. now rewrite (bind_ok _ _ _ _ _ He).
  - intros c. destruct (exec_opened s (call_write c) H) as [He _].
    pose proof (lockstep_after s (call_write c) H L) as L'.
    eexists. split; [exact He|].
    assert (Hne : _buffer (after (call_write c) s) <> [])
      by (cbn; now destruct (_buffer s)).
    split; [exact Hne | now apply L'].
  - intros o. destruct (exec_opened s (ev_write o) H) as [He _].
    pose proof (lockstep_after s (ev_write o) H L) as L'.
    eexists. split; [exact He|]. intros Hb.
    destruct (writing _) eqn:Hw; [|reflexivity].
    apply L' in Hw. contradiction.
Qed.

(** The invariant at work on a freshly opened component. *)
Lemma lockstep_preserved_witness :
  (exists s',
      run [call_write (b "ab"); ev_write (Wrote 1); call_close;
           ev_write (Wrote 5)] (fresh "f" "r+" 3) = (Ok tt, s')
      /\ opened s' = true /\ lockstep s')
  /\ (forall c, exists s',
        write c (fresh "f" "r+" 3) = (Ok tt, s')
        /\ _buffer s' <> [] /\ writing s' = true)
  /\ (forall o, exists s',
        __on_write o (fresh "f" "r+" 3) = (Ok tt, s')
        /\ (_buffer s' = [] -> writing s' = false)).
Proof.
  apply (lockstep_preserved (fresh "f" "r+" 3)).
  - reflexivity.
  - split; [intros H; now elim H | discriminate].
Defined.

(** *** The order of written bytes *)

Lemma settle_flag_clear t :
  _closeflag t = false ->
  sink (settle t) = sink t /\ _buffer (settle t) = _buffer t
  /\ _closeflag (settle t) = false /\ fired (settle t) = fired t.
Proof.
  intros Hc. unfold settle. destruct (_buffer t) eqn:Hb; [|now rewrite Hb].
  rewrite Hc. destruct (writing t); cbn; now rewrite ?Hb, ?Hc.
Qed.

Lemma after_notify_flag_clear s n :
  _closeflag s = false ->
  let s' := after (ev_write (Wrote n)) s in
  _closeflag s' = false /\ fired s' = fired s
  /\ match _buffer s with
     | [] => sink s' = sink s /\ _buffer s' = []
     | c :: rest =>
         sink s' = sink s ++ take n c
         /\ _buffer s' = if (n <? length c)%nat then drop n c :: rest else rest
     end.
Proof.
  intros Hc. cbn [after]. cbv zeta. destruct (_buffer s) as [|c rest] eqn:Hb.
  - destruct (settle_flag_clear s Hc) as (-> & -> & -> & ->). now rewrite Hb.
  - set (t := after_write c (Wrote n) (set_buffer rest s)).
    assert (Ht : _closeflag t = false /\ fired t = fired s
                 /\ sink t = sink s ++ take n c
                 /\ _buffer t =
                      if (n <? length c)%nat then drop n c :: rest else rest).
    { subst t. unfold after_write. cbv zeta.
      destruct (n <? length c)%nat; cbn; now rewrite Hc. }
    destruct Ht as (Hf & He & Hs & Hbt).
    destruct (settle_flag_clear t Hf) as (-> & -> & -> & ->). tauto.
Qed.

Lemma conserve_after s o :
  wr_only o = true -> _closeflag s = false ->
  _closeflag (after o s) = false
  /\ fired (after o s) = fired s
  /\ sink (after o s) ++ concat (_buffer (after o s))
     = sink s ++ concat (_buffer s) ++ concat (submitted [o])
  /\ (pending (after o s)
      <= pending s + length (concat (submitted [o])) + length (submitted [o]))%nat.
Proof.
  intros Hw Hc. destruct o as [c| |[n|e]|o| |x|]; try discriminate Hw.
  - cbn [after submitted omap list_omap]. unfold pending.
    assert (Hb : _buffer (set_buffer (_buffer s ++ [c])
                   (if writing s then s
                    else set_poller (addWriter (_fd s) <$> _poller s) s))
                 = _buffer s ++ [c]) by reflexivity.
    rewrite Hb. repeat split.
    + now destruct (writing s).
    + now destruct (writing s).
    + assert (Hs : forall t, sink (set_buffer (_buffer s ++ [c]) t) = sink t)
        by reflexivity.
      rewrite Hs. rewrite concat_app.
      now destruct (writing s).
    + rewrite concat_app, !length_app. cbn. lia.
  - pose proof (after_notify_flag_clear s n Hc) as H. cbv zeta in H.
    destruct H as (Hf & He & H). unfold pending.
    cbn [submitted omap list_omap concat length]. rewrite !app_nil_r.
    repeat split; [exact Hf | exact He | |].
    + destruct (_buffer s) as [|c rest].
      * destruct H as [-> ->]. reflexivity.
      * destruct H as [-> ->]. cbn [concat].
        destruct (Nat.ltb_spec n (length c)).
        -- cbn [concat]. rewrite <- !app_assoc. f_equal.
           rewrite app_assoc. now rewrite take_drop.
        -- rewrite take_ge by lia. now rewrite <- app_assoc.
    + destruct (_buffer s) as [|c rest].
      * destruct H as [_ ->]. cbn. lia.
      * destruct H as [_ ->]. destruct (n <? length c)%nat.
        -- cbn [concat length]. rewrite !length_app, length_drop. lia.
        -- cbn [concat length]. rewrite !length_app. lia.
Qed.

Lemma conserve_afters ops s :
  forallb wr_only ops = true -> _closeflag s = false ->
  _closeflag (afters ops s) = false
  /\ fired (afters ops s) = fired s
  /\ sink (afters ops s) ++ concat (_buffer (afters ops s))
     = sink s ++ concat (_buffer s) ++ concat (submitted ops)
  /\ (pending (afters ops s)
      <= pending s + length (concat (submitted ops)) + length (submitted ops))%nat.
Proof.
  unfold afters.
  revert s. induction ops as [|o ops IH]; intros s Hw Hc; cbn [fold_left].
  - cbn. rewrite !app_nil_r. repeat split; [exact Hc | lia].
  - cbn [forallb] in Hw. apply andb_prop in Hw as [Ho Hw].
    destruct (conserve_after s o Ho Hc) as (Hc1 & He1 & Hs1 & Hp1).
    destruct (IH (after o s) Hw Hc1) as (Hc2 & He2 & Hs2 & Hp2).
    assert (Hsub : submitted (o :: ops) = submitted [o] ++ submitted ops)
      by (cbn; now destruct o).
    rewrite Hsub, concat_app, !length_app.
    repeat split.
    + exact Hc2.
    + congruence.
    + rewrite Hs2, app_assoc, Hs1. now rewrite <- !app_assoc.
    + lia.
Qed.

Lemma drain_afters ns s :
  _closeflag s = false -> Forall (fun n => 0 < n)%nat ns ->
  (pending (afters (notifications ns) s) <= pending s - length ns)%nat.
Proof.
  unfold afters.
  revert s. induction ns as [|n ns IH]; intros s Hc Hpos; cbn [notifications map fold_left].
  - cbn. lia.
  - inversion Hpos as [|? ? Hn Hpos']; subst.
    pose proof (after_notify_flag_clear s n Hc) as H. cbv zeta in H.
    destruct H as (Hf & _ & H).
    specialize (IH (after (ev_write (Wrote n)) s) Hf Hpos').
    etransitivity; [exact IH|].
    cbn [length].
    enough (pending (after (ev_write (Wrote n)) s) <= pending s - 1)%nat by lia.
    unfold pending. destruct (_buffer s) as [|c rest].
    + destruct H as [_ ->]. cbn. lia.
    + destruct H as [_ ->]. destruct (Nat.ltb_spec n (length c)).
      * cbn [concat length]. rewrite !length_app, length_drop. lia.
      * cbn [concat length]. rewrite !length_app. lia.
Qed.

Lemma submitted_notifications ns : submitted (notifications ns) = [].
Proof. induction ns; [reflexivity | exact IHns]. Qed.

Lemma wr_only_notifications ns : forallb wr_only (notifications ns) = true.
Proof. induction ns; [reflexivity | exact IHns]. Qed.

(** C1: chunks submitted by [write], with no close among them, reach the
    sink in submission order whatever the pattern of partial writes.  For
    any interleaving [ops] of submissions and successful writer
    notifications followed by notifications taking [ns] bytes in turn, the
    run completes, the sink followed by what is still queued is the
    concatenation of the chunks (so an empty queue means the sink holds
    exactly that concatenation), the queue does drain once the final
    notifications each take a byte and are as many as the bytes and chunks
    outstanding, and a partial write puts the unwritten rest of the chunk
    back at the head of the queue. *)
Theorem writes_reach_sink_in_order (s : state) (ops : list op) (ns : list nat) :
  opened s = true -> _closeflag s = false -> forallb wr_only ops = true ->
  (exists s',
      run (ops ++ notifications ns) s = (Ok tt, s')
      /\ sink s' ++ concat (_buffer s')
         = sink s ++ concat (_buffer s) ++ concat (submitted ops)
      /\ (_buffer s' = [] ->
          sink s' = sink s ++ concat (_buffer s) ++ concat (submitted ops))
      /\ (Forall (fun n => 0 < n)%nat ns ->
          (pending s + length (concat (submitted ops))
           + length (submitted ops) <= length ns)%nat ->
          _buffer s' = []))
  /\ (forall c rest n,
        _buffer s = c :: rest -> (n < length c)%nat ->
        exists t, __on_write (Wrote n) s = (Ok tt, t)
                  /\ _buffer t = drop n c :: rest
                  /\ sink t = sink s ++ take n c).
Proof.
  intros H Hc Hw. split.
  - destruct (run_opened s (ops ++ notifications ns) H) as (s' & Hr & _ & Hs').
    exists s'. split; [exact Hr|].
    assert (Hall : forallb wr_only (ops ++ notifications ns) = true)
      by (rewrite forallb_app, Hw; apply wr_only_notifications).
    destruct (conserve_afters _ s Hall Hc) as (_ & _ & Hs & _).
    rewrite <- Hs' in Hs.
    assert (Hsub : submitted (ops ++ notifications ns) = submitted ops).
    { unfold submitted. rewrite omap_app.
      fold (submitted (notifications ns)).
      now rewrite submitted_notifications, app_nil_r. }
    rewrite Hsub in Hs. split; [exact Hs|]. split.
    + intros Hb. rewrite Hb in Hs. cbn in Hs. now rewrite app_nil_r in Hs.
    + intros Hpos Hlen.
      destruct (conserve_afters ops s Hw Hc) as (Hc1 & _ & _ & Hp1).
      pose proof (drain_afters ns (afters ops s) Hc1 Hpos) as Hp2.
      assert (Heq : afters (notifications ns) (afters ops s) = s')
        by (rewrite Hs'; unfold afters; now rewrite fold_left_app).
      rewrite Heq in Hp2. unfold pending in Hp2 at 1.
      destruct (_buffer s'); [reflexivity | cbn in Hp2; lia].
  - intros c rest n Hb Hn.
    destruct (exec_opened s (ev_write (Wrote n)) H) as [He _].
    eexists. split; [exact He|].
    pose proof (after_notify_flag_clear s n Hc) as A. cbv zeta in A.
    destruct A as (_ & _ & A). rewrite Hb in A. destruct A as [-> ->].
    destruct (Nat.ltb_spec n (length c)); [now split | lia].
Qed.

(** Two chunks, a sink that takes one byte at a time, a freshly opened
    component. *)
Lemma writes_reach_sink_in_order_witness :
  (exists s',
      run ([call_write (b "ab"); call_write (b "cd")]
           ++ notifications [1; 1; 1; 1]%nat) (fresh "f" "w" 3) = (Ok tt, s')
      /\ sink s' ++ concat (_buffer s')
         = sink (fresh "f" "w" 3) ++ concat (_buffer (fresh "f" "w" 3))
           ++ concat (submitted [call_write (b "ab"); call_write (b "cd")])
      /\ (_buffer s' = [] ->
          sink s'
          = sink (fresh "f" "w" 3) ++ concat (_buffer (fresh "f" "w" 3))
            ++ concat (submitted [call_write (b "ab"); call_write (b "cd")]))
      /\ (Forall (fun n => 0 < n)%nat [1; 1; 1; 1]%nat ->
          (pending (fresh "f" "w" 3)
           + length (concat (submitted [call_write (b "ab"); call_write (b "cd")]))
           + length (submitted [call_write (b "ab"); call_write (b "cd")])
           <= length [1; 1; 1; 1]%nat)%nat ->
          _buffer s' = []))
  /\ (forall c rest n,
        _buffer (fresh "f" "w" 3) = c :: rest -> (n < length c)%nat ->
        exists t, __on_write (Wrote n) (fresh "f" "w" 3) = (Ok tt, t)
                  /\ _buffer t = drop n c :: rest
                  /\ sink t = sink (fresh "f" "w" 3) ++ take n c).
Proof.
  apply (writes_reach_sink_in_order (fresh "f" "w" 3)
           [call_write (b "ab"); call_write (b "cd")] [1; 1; 1; 1]%nat);
    reflexivity.
Defined.

(** The specification's scenario: chunks ["ab"] and ["cd"], one byte taken
    per attempt; after four notifications the sink holds ["abcd"] and the
    component is no longer a writer. *)
Example two_chunks_one_byte_at_a_time :
  let s' := snd (run ([call_write (b "ab"); call_write (b "cd")]
                      ++ notifications [1; 1; 1; 1]%nat) (fresh "f" "w" 3)) in
  sink s' = b "abcd" /\ _buffer s' = [] /\ writing s' = false
  /\ fired s' = [Ready; Opened "f" "w"].
Proof. vm_compute. repeat apply conj; reflexivity. Qed.

(** *** Closing *)

(** The release [self._fd.cllse()] names no method of a file object: the
    call raises, the bare [except] swallows it, and the file object stays
    as it was. *)
Lemma release_is_swallowed s f :
  _fd s = Some f ->
  call_fd "cllse" s = (Raised (AttributeError "cllse"), s)
  /\ try_pass (call_fd "cllse") s = (Ok tt, s).
Proof.
  intros Hf. unfold try_pass, call_fd, bind, the_fd. rewrite Hf. now cbn.
Qed.

(** After [_close] the property [closed] still answers [False]. *)
Lemma closed_after_close s :
  opened s = true -> closed (after_close s) = (Ok false, after_close s).
Proof. intros H. open_state s H. reflexivity. Qed.

Lemma close_twice s :
  opened s = true -> _buffer s = [] ->
  exists s', (close;; close) s = (Ok tt, s')
             /\ fired s' = fired s ++ [Closed; Closed].
Proof.
  intros H Hb. pose proof (close_opened s H) as H1. rewrite Hb in H1.
  assert (H' : opened (after_close s) = true) by now rewrite opened_after_close.
  pose proof (close_opened _ H') as H2. cbn [after_close set_fired _buffer] in H2.
  eexists. split.
  - rewrite (bind_ok _ _ _ _ _ H1). exact H2.
  - cbn. now rewrite <- app_assoc.
Qed.

(** C2, on the code: a component opened and closed once is closed a second
    time.  The second [close] completes, and fires a second [Closed]: the
    guard [if self.closed: return] of [_close] never holds, since the
    release before it is [self._fd.cllse()] and leaves the file object
    open. *)
Theorem second_close_fires_Closed_again :
  exists s1 s2,
    close (fresh "f" "r" 3) = (Ok tt, s1)
    /\ fired s1 = [Ready; Opened "f" "r"; Closed]
    /\ closed s1 = (Ok false, s1)
    /\ close s1 = (Ok tt, s2)
    /\ fired s2 = [Ready; Opened "f" "r"; Closed; Closed].
Proof.
  exists closed_once.
  exists (after call_close closed_once).
  repeat apply conj; vm_compute; reflexivity.
Qed.

(** C7, as stated, fails before the descriptor is opened: on the component
    as [init] leaves it, [close] raises [AttributeError], from
    [self._fd.closed] with [_fd] still [None]. *)
Lemma close_before_open_raises :
  close (init "f" "r" BUFSIZE)
  = (Raised (AttributeError "closed"), init "f" "r" BUFSIZE).
Proof. reflexivity. Qed.

(** [close] returns exactly in the states where writes are pending or the
    descriptor has been opened and, unless the file object is already
    closed, a poller is bound. *)
Lemma close_completes_iff (s : state) :
  (exists s', close s = (Ok tt, s'))
  <-> (_buffer s <> []
       \/ exists f, _fd s = Some f
                    /\ (fclosed f = true \/ is_Some (_poller s))).
Proof.
  destruct s as [md bs fn fd pl buf cf conn evs sk].
  cbn [_buffer _fd _poller]. split.
  - intros [s' Hs']. destruct buf as [|c buf]; [|left; discriminate].
    right. destruct fd as [[fdn fc]|]; [|unfold_M_in Hs'; discriminate Hs'].
    eexists; split; [reflexivity|]. destruct fc; [now left|]. right.
    destruct pl; [eauto | unfold_M_in Hs'; discriminate Hs'].
  - intros [Hb | (f & Hf & Hc)].
    + destruct buf as [|c buf]; [now elim Hb|].
      destruct cf; eexists; reflexivity.
    + subst fd. destruct buf as [|c buf]; [|destruct cf; eexists; reflexivity].
      destruct f as [fdn fc]. cbn [fclosed] in Hc.
      destruct Hc as [-> | [p ->]]; [eexists; reflexivity|].
      destruct fc; eexists; reflexivity.
Qed.

(** C7, amended: once the descriptor has been opened and a poller is bound
    (or the file object is already closed, or writes are pending and the
    close is only noted), [close] completes without an exception, a
    previous close or not.  The failure of the release of the descriptor
    is swallowed: the release raises, and [_close] goes on to fire
    [Closed]. *)
Theorem close_never_raises_once_opened (s : state) :
  (_buffer s <> []
   \/ exists f, _fd s = Some f
                /\ (fclosed f = true \/ is_Some (_poller s))) ->
  (exists s', close s = (Ok tt, s'))
  /\ (forall f, _fd s = Some f ->
      call_fd "cllse" s = (Raised (AttributeError "cllse"), s)
      /\ (opened s = true ->
          exists s', _close s = (Ok tt, s')
                     /\ fired s' = fired s ++ [Closed])).
Proof.
  intros Hs. split; [now apply close_completes_iff|].
  intros f Hf. split; [exact (proj1 (release_is_swallowed s f Hf))|].
  intros H. exists (after_close s).
  split; [now apply _close_opened | reflexivity].
Qed.

(** A component that has been closed once is closed again. *)
Lemma close_never_raises_once_opened_witness :
  (exists s', close closed_once = (Ok tt, s'))
  /\ (forall f, _fd closed_once = Some f ->
      call_fd "cllse" closed_once
      = (Raised (AttributeError "cllse"), closed_once)
      /\ (opened closed_once = true ->
          exists s', _close closed_once = (Ok tt, s')
                     /\ fired s'
                        = fired closed_once ++ [Closed])).
Proof.
  apply (close_never_raises_once_opened closed_once).
  right. exists (mkFile 3 false). split; [reflexivity|]. right.
  vm_compute. eauto.
Defined.

(** *** The end of a writer notification *)

Lemma settle_nonempty t : _buffer t <> [] -> settle t = t.
Proof. unfold settle. now destruct (_buffer t). Qed.

Lemma settle_flagged t :
  _buffer t = [] -> _closeflag t = true -> settle t = after_close t.
Proof. unfold settle. now intros -> ->. Qed.

Lemma settle_after_close t : settle (after_close t) = after_close t.
Proof.
  unfold settle. rewrite writing_after_close. reflexivity.
Qed.

(** *** Faults of a write *)

(** C6: a write that fails with [EPIPE] or [ENOTCONN] closes the component
    at once: [Closed] is fired, the pending writes are dropped without a
    further byte reaching the sink, and the descriptor leaves the poller,
    whatever was pending; the same holds of the whole writer notification.
    A write that fails with any other [errno] fires [Error] and changes
    nothing else: no [Closed], the buffer and the registrations as they
    were. *)
Theorem write_fault_closes_only_when_peer_gone
    (s : state) (data : bytes) (errno : Z) :
  opened s = true ->
  (exists s',
      _write data (WriteFault errno) s = (Ok tt, s')
      /\ (peer_gone errno = true ->
          fired s' = fired s ++ [Closed] /\ _buffer s' = []
          /\ sink s' = sink s /\ writing s' = false /\ reading s' = false)
      /\ (peer_gone errno = false ->
          s' = set_fired (fired s ++ [Error (SocketError errno)]) s))
  /\ (peer_gone errno = true -> _buffer s <> [] ->
      exists s',
        __on_write (WriteFault errno) s = (Ok tt, s')
        /\ fired s' = fired s ++ [Closed] /\ _buffer s' = []
        /\ sink s' = sink s /\ writing s' = false).
Proof.
  intros H. split.
  - exists (after_write data (WriteFault errno) s).
    split; [now apply _write_opened|]. unfold after_write. fold (peer_gone errno).
    split; intros ->; [|reflexivity].
    repeat apply conj; try reflexivity;
      [apply writing_after_close | apply reading_after_close].
  - intros Hp Hb. eexists. split; [now apply on_write_opened|].
    destruct (_buffer s) as [|c rest]; [now elim Hb|].
    unfold after_write. fold (peer_gone errno). rewrite Hp, settle_after_close.
    repeat apply conj; try reflexivity. apply writing_after_close.
Qed.

(** A broken pipe while two chunks are pending. *)
Lemma write_fault_closes_only_when_peer_gone_witness :
  exists s',
    __on_write (WriteFault EPIPE) two_pending
    = (Ok tt, s')
    /\ fired s' = [Ready; Opened "f" "r+"; Closed] /\ _buffer s' = []
    /\ sink s' = [] /\ writing s' = false.
Proof.
  refine (proj2 (write_fault_closes_only_when_peer_gone
                   two_pending [] EPIPE _) _ _).
  - vm_compute; reflexivity.
  - vm_compute; reflexivity.
  - vm_compute; discriminate.
Defined.

(** C10: when the write of the head chunk fails with an [errno] other than
    [EPIPE] and [ENOTCONN], the chunk is gone: it was taken off the queue
    before the attempt and is not put back, the queue is what followed it,
    the sink has received nothing of it, and [Error] is fired.  The
    component stays open; [Closed] follows only if a close had been
    requested and this was the last chunk.  With no close requested, what
    later notifications bring to the sink is the rest of the queue, without
    the chunk. *)
Theorem faulted_chunk_is_dropped
    (s : state) (c : bytes) (rest : list bytes) (errno : Z) :
  opened s = true -> _buffer s = c :: rest -> peer_gone errno = false ->
  exists s',
    __on_write (WriteFault errno) s = (Ok tt, s')
    /\ _buffer s' = rest /\ sink s' = sink s
    /\ fired s' = fired s ++ Error (SocketError errno)
                    :: (if _closeflag s
                        then match rest with [] => [Closed] | _ :: _ => [] end
                        else [])
    /\ opened s' = true
    /\ (_closeflag s = false ->
        forall ns, exists s'',
          run (notifications ns) s' = (Ok tt, s'')
          /\ sink s'' ++ concat (_buffer s'') = sink s ++ concat rest).
Proof.
  intros H Hb Hp.
  destruct (exec_opened s (ev_write (WriteFault errno)) H) as [He Ho].
  cbn [exec after] in He, Ho. rewrite Hb in He, Ho.
  unfold after_write in He, Ho. fold (peer_gone errno) in He, Ho.
  rewrite Hp in He, Ho.
  set (t := set_fired (fired (set_buffer rest s) ++ [Error (SocketError errno)])
              (set_buffer rest s)) in *.
  exists (settle t). split; [exact He|].
  assert (Hcases :
    _buffer (settle t) = rest /\ sink (settle t) = sink s
    /\ fired (settle t)
       = fired s ++ Error (SocketError errno)
           :: (if _closeflag s
               then match rest with [] => [Closed] | _ :: _ => [] end
               else [])
    /\ _closeflag (settle t) = (_closeflag s && negb (bool_decide (length rest = 0%nat)))).
  { destruct (_closeflag s) eqn:Hc.
    - destruct rest as [|c' rest'].
      + rewrite settle_flagged by (subst t; cbn; auto).
        subst t. cbn. now rewrite <- app_assoc.
      + rewrite settle_nonempty by (subst t; cbn; discriminate).
        subst t. cbn. now rewrite Hc.
    - assert (Ht : _closeflag t = false) by (subst t; cbn; exact Hc).
      destruct (settle_flag_clear t Ht) as (-> & -> & -> & ->).
      subst t. now cbn. }
  destruct Hcases as (B & S & F & C).
  repeat apply conj; [exact B | exact S | exact F | exact Ho |].
  intros Hc ns.
  destruct (run_opened (settle t) (notifications ns) Ho) as (s'' & Hr & _ & Hs'').
  exists s''. split; [exact Hr|].
  rewrite Hc in C. cbn in C.
  destruct (conserve_afters (notifications ns) (settle t)
              (wr_only_notifications ns) C) as (_ & _ & Hs & _).
  rewrite <- Hs'' in Hs. rewrite Hs, B, S, submitted_notifications.
  cbn. now rewrite app_nil_r.
Qed.

(** An I/O error (errno 5) on the first of two chunks. *)
Lemma faulted_chunk_is_dropped_witness :
  exists s',
    __on_write (WriteFault 5) two_pending
    = (Ok tt, s')
    /\ _buffer s' = [b "cd"] /\ sink s' = []
    /\ fired s' = [Ready; Opened "f" "r+"; Error (SocketError 5)].
Proof.
  destruct (faulted_chunk_is_dropped
              two_pending (b "ab") [b "cd"] 5)
    as (s' & He & B & S & F & _).
  - vm_compute; reflexivity.
  - vm_compute; reflexivity.
  - vm_compute; reflexivity.
  - exists s'. repeat apply conj; assumption.
Defined.

(** *** A close requested while writes are pending *)

(** C3, as stated, fails: with a close requested and a chunk pending,
    [write] still queues what it is given. *)
Lemma write_after_close_request_is_queued :
  exists s',
    _closeflag closing = true /\ _buffer closing = [b "ab"]
    /\ write (b "x") closing = (Ok tt, s')
    /\ _buffer s' = [b "ab"; b "x"] /\ _closeflag s' = true.
Proof.
  exists (after (call_write (b "x")) closing).
  repeat apply conj; vm_compute; reflexivity.
Qed.

(** C3, amended: once a close has been requested with writes pending,
    [write] still appends its data to the pending writes and the request
    stands; a writer notification that leaves chunks pending fires no
    [Closed] and keeps the request, and the notification that leaves none
    closes the component: [Closed] is fired, once and last, and the
    component is no longer a writer. *)
Theorem close_request_waits_for_drain
    (s : state) (data : bytes) (o : write_outcome) :
  opened s = true -> _closeflag s = true ->
  (exists s',
      write data s = (Ok tt, s')
      /\ _buffer s' = _buffer s ++ [data] /\ _closeflag s' = true)
  /\ (exists s' evs,
        __on_write o s = (Ok tt, s') /\ fired s' = fired s ++ evs
        /\ (_buffer s' <> [] ->
            _closeflag s' = true /\ List.filter is_Closed evs = [])
        /\ (_buffer s' = [] ->
            List.filter is_Closed evs = [Closed] /\ last evs = Some Closed
            /\ writing s' = false /\ _closeflag s' = false)).
Proof.
  intros H Hc. split.
  - eexists. split; [now apply write_opened|].
    split; [reflexivity|]. cbn. now destruct (writing s).
  - destruct (exec_opened s (ev_write o) H) as [He _]. cbn [exec] in He.
    exists (after (ev_write o) s). cbn [after] in He |- *.
    assert (Hclose : forall t evs,
      fired t = fired s ++ evs -> List.filter is_Closed evs = [] ->
      _buffer t = [] -> _closeflag t = true ->
      fired (settle t) = fired s ++ (evs ++ [Closed])
      /\ (_buffer (settle t) <> [] ->
          _closeflag (settle t) = true
          /\ List.filter is_Closed (evs ++ [Closed]) = [])
      /\ (_buffer (settle t) = [] ->
          List.filter is_Closed (evs ++ [Closed]) = [Closed]
          /\ last (evs ++ [Closed]) = Some Closed
          /\ writing (settle t) = false /\ _closeflag (settle t) = false)).
    { intros t evs Hf Hn Hb Hcf. rewrite (settle_flagged t Hb Hcf).
      split; [cbn; now rewrite Hf, app_assoc|].
      split; [intros Hne; now elim Hne|]. intros _.
      rewrite List.filter_app, Hn, last_snoc.
      repeat apply conj; try reflexivity. apply writing_after_close. }
    assert (Hkeep : forall t evs,
      fired t = fired s ++ evs -> List.filter is_Closed evs = [] ->
      _buffer t <> [] -> _closeflag t = true ->
      fired (settle t) = fired s ++ evs
      /\ (_buffer (settle t) <> [] ->
          _closeflag (settle t) = true /\ List.filter is_Closed evs = [])
      /\ (_buffer (settle t) = [] ->
          List.filter is_Closed evs = [Closed] /\ last evs = Some Closed
          /\ writing (settle t) = false /\ _closeflag (settle t) = false)).
    { intros t evs Hf Hn Hb Hcf. rewrite (settle_nonempty t Hb).
      split; [exact Hf|]. split; [now intros _ | intros Hb'; now elim Hb]. }
    destruct (_buffer s) as [|c rest] eqn:Hb.
    + exists [Closed]. split; [exact He|].
      apply (Hclose s []); auto. now rewrite app_nil_r.
    + destruct o as [n|e]; unfold after_write in He |- *; cbv zeta in He |- *.
      * destruct (n <? length c)%nat.
        -- exists []. split; [exact He|].
           apply Hkeep; auto; try discriminate; cbn; now rewrite app_nil_r.
        -- destruct rest as [|c' rest'].
           ++ exists [Closed]. split; [exact He|].
              apply (Hclose _ []); auto; cbn; now rewrite app_nil_r.
           ++ exists []. split; [exact He|].
              apply Hkeep; auto; try discriminate; cbn; now rewrite app_nil_r.
      * fold (peer_gone e) in He |- *. destruct (peer_gone e).
        -- exists [Closed]. split; [exact He|].
           rewrite settle_after_close.
           split; [reflexivity|]. split; [intros Hne; now elim Hne|].
           intros _. repeat apply conj; try reflexivity.
           apply writing_after_close.
        -- destruct rest as [|c' rest'].
           ++ exists [Error (SocketError e); Closed]. split; [exact He|].
              apply (Hclose _ [Error (SocketError e)]); auto.
           ++ exists [Error (SocketError e)]. split; [exact He|].
              apply Hkeep; auto; discriminate.
Qed.

(** A close requested with ["ab"] pending, then ["x"] written, then a
    notification in which the sink takes everything offered. *)
Lemma close_request_waits_for_drain_witness :
  (exists s',
      write (b "x") closing = (Ok tt, s')
      /\ _buffer s' = _buffer closing ++ [b "x"] /\ _closeflag s' = true)
  /\ (exists s' evs,
        __on_write (Wrote 9) closing = (Ok tt, s')
        /\ fired s' = fired closing ++ evs
        /\ (_buffer s' <> [] ->
            _closeflag s' = true /\ List.filter is_Closed evs = [])
        /\ (_buffer s' = [] ->
            List.filter is_Closed evs = [Closed] /\ last evs = Some Closed
            /\ writing s' = false /\ _closeflag s' = false)).
Proof.
  apply (close_request_waits_for_drain closing (b "x") (Wrote 9));
    vm_compute; reflexivity.
Defined.

(** *** The end of the stream *)

(** C5, as stated, fails when writes are pending: the zero-byte read fires
    [EOF] and nothing else, the close is only noted, and the component is
    still a reader. *)
Lemma zero_byte_read_with_pending_write :
  exists s',
    _read (Available []) one_pending = (Ok tt, s')
    /\ _buffer one_pending = [b "ab"]
    /\ fired s' = fired one_pending ++ [EOF]
    /\ List.filter is_Closed (fired s') = []
    /\ reading s' = true.
Proof.
  exists (after (ev_read (Available [])) one_pending).
  repeat apply conj; vm_compute; reflexivity.
Qed.

(** C5, amended: on an open component with nothing pending, a read that
    returns no byte fires [EOF] and then [Closed], once each, and takes the
    descriptor out of the poller, so that no read notification follows.
    With writes pending it fires [EOF] only: the close is noted
    ([_closeflag]), the pending writes and the registrations stay, and
    [Closed] waits for the drain. *)
Theorem zero_byte_read_signals_EOF_then_closes (s : state) (data : bytes) :
  opened s = true -> take (_bufsize s) data = [] ->
  exists s',
    _read (Available data) s = (Ok tt, s')
    /\ (_buffer s = [] ->
        fired s' = fired s ++ [EOF; Closed]
        /\ reading s' = false /\ writing s' = false)
    /\ (_buffer s <> [] ->
        fired s' = fired s ++ [EOF] /\ _closeflag s' = true
        /\ _buffer s' = _buffer s
        /\ reading s' = reading s /\ writing s' = writing s).
Proof.
  intros H Hz. exists (after_read (Available data) s).
  split; [now apply _read_opened|].
  unfold after_read. rewrite Hz. cbv zeta.
  destruct (_buffer s) as [|c rest] eqn:Hb; split.
  - intros _. split; [cbn; now rewrite <- app_assoc|].
    split; [apply reading_after_close | apply writing_after_close].
  - intros Hne. now elim Hne.
  - discriminate.
  - intros _. cbn. now rewrite Hb.
Qed.

(** End of stream on a freshly opened component, and on one with a chunk
    pending. *)
Lemma zero_byte_read_signals_EOF_then_closes_witness :
  (exists s',
      _read (Available []) (fresh "f" "r" 3) = (Ok tt, s')
      /\ fired s' = [Ready; Opened "f" "r"; EOF; Closed]
      /\ reading s' = false)
  /\ (exists s',
        _read (Available []) one_pending = (Ok tt, s')
        /\ fired s' = [Ready; Opened "f" "r+"; EOF]
        /\ _closeflag s' = true).
Proof.
  split.
  - destruct (zero_byte_read_signals_EOF_then_closes (fresh "f" "r" 3) [])
      as (s' & He & Hempty & _); [reflexivity | reflexivity |].
    destruct Hempty as (F & R & _); [reflexivity|].
    exists s'. repeat apply conj; assumption.
  - destruct (zero_byte_read_signals_EOF_then_closes one_pending [])
      as (s' & He & _ & Hpending); [reflexivity | reflexivity |].
    destruct Hpending as (F & C & _); [vm_compute; discriminate|].
    exists s'. repeat apply conj; assumption.
Defined.

(** *** Start-up *)

Lemma startup_bound e s :
  bound s = true -> exec_startup e s = (Ok tt, s).
Proof.
  destruct s as [md bs fn fd [p|] buf cf conn evs sk]; [|discriminate].
  intros _. now destruct e.
Qed.

Lemma startup_unbound e s :
  bound s = false ->
  exists s', exec_startup e s = (Ok tt, s')
    /\ _fd s' = _fd s /\ _buffer s' = _buffer s
    /\ fired s' = fired s ++ (if bound s' then [Ready] else [])
    /\ (e = ev_started -> bound s' = true).
Proof.
  destruct s as [md bs fn fd [p|] buf cf conn evs sk]; [discriminate|].
  intros _.
  destruct e as [[|q|] [q'|]|]; eexists; (split; [reflexivity|]); cbn;
    repeat apply conj; try reflexivity; try discriminate;
    now rewrite ?app_nil_r.
Qed.

Lemma startup_run l s :
  fired s = (if bound s then [Ready] else []) ->
  exists s', run_startup l s = (Ok tt, s')
    /\ fired s' = (if bound s' then [Ready] else [])
    /\ _fd s' = _fd s /\ _buffer s' = _buffer s
    /\ (In ev_started l -> bound s' = true)
    /\ (bound s = true -> s' = s).
Proof.
  revert s. induction l as [|e l IH]; intros s Hf.
  - exists s. repeat apply conj; auto; intros [].
  - cbn [run_startup]. destruct (bound s) eqn:Hb.
    + rewrite (bind_ok _ _ _ _ _ (startup_bound e s Hb)).
      destruct (IH s) as (s' & Hr & F & A & B & C & D); [now rewrite Hb|].
      exists s'. repeat apply conj; auto.
      intros _. now rewrite (D Hb).
    + destruct (startup_unbound e s Hb) as (s1 & He & A1 & B1 & F1 & Hst).
      rewrite (bind_ok _ _ _ _ _ He).
      destruct (IH s1) as (s' & Hr & F & A & B & C & D).
      { now rewrite F1, Hf. }
      exists s'. repeat apply conj; auto; try congruence.
      intros [-> | Hin]; [|now apply C].
      now rewrite (D (Hst eq_refl)), (Hst eq_refl).
Qed.

(** Whatever [registered] and [started] events arrive, in whatever order
    and with whatever the search finds, the start-up of a new component
    completes, [Ready] is fired once if a poller has been bound and not at
    all otherwise, nothing else is fired, the descriptor and the buffer
    are not touched, a [started] event leaves a poller bound, and a poller
    once bound is kept through the later events, which change nothing. *)
Theorem Ready_is_fired_once
    (filename mode : string) (bufsize : nat) (es later : list startup) :
  exists s' s'',
    run_startup es (init filename mode bufsize) = (Ok tt, s')
    /\ fired s' = (if bound s' then [Ready] else [])
    /\ _fd s' = None /\ _buffer s' = []
    /\ (In ev_started es -> bound s' = true)
    /\ run_startup later s' = (Ok tt, s'')
    /\ (bound s' = true -> s'' = s').
Proof.
  destruct (startup_run es (init filename mode bufsize) eq_refl)
    as (s' & Hr & F & A & B & C & _).
  destruct (startup_run later s' F) as (s'' & Hr' & _ & _ & _ & _ & D).
  exists s', s''. repeat apply conj; auto.
Qed.

(** *** Opening *)

(** With a poller bound, [_on_ready] on a successful [open] leaves the
    descriptor open, fires [Opened] with the file name and the mode and
    nothing else, registers the component as a reader exactly when the
    mode has an ["r"] or a ["+"], and never as a writer; the pending
    writes stay.  A failed [open] raises its error out of the handler with
    the component untouched: no event, no descriptor. *)
Theorem ready_opens_and_registers_reader (s : state) (n : nat) (errno : Z) :
  bound s = true ->
  (exists s',
      _on_ready (OpenedAs n) s = (Ok tt, s')
      /\ _fd s' = Some (mkFile n false) /\ opened s' = true
      /\ fired s' = fired s ++ [Opened (_filename s) (_mode s)]
      /\ _poller s'
         = (if readable (_mode s)
            then addReader (Some (mkFile n false)) <$> _poller s
            else _poller s)
      /\ (readable (_mode s) = true -> reading s' = true)
      /\ (forall p p', _poller s = Some p -> _poller s' = Some p' ->
          writers p' = writers p)
      /\ _buffer s' = _buffer s /\ sink s' = sink s)
  /\ _on_ready (OpenFault errno) s = (Raised (SocketError errno), s).
Proof.
  destruct s as [md bs fn fd [p|] buf cf conn evs sk]; [|discriminate].
  intros _. split; [|reflexivity].
  unfold _on_ready, readable. cbn [_mode _filename _poller fired _buffer sink].
  destruct (contains "r" md || contains "+" md) eqn:Hm.
  - eexists. split.
    { unfold_M. cbn [_mode]. rewrite Hm. reflexivity. }
    repeat apply conj; try reflexivity.
    + intros _. cbn. apply bool_decide_eq_true. cbn.
      now apply elem_of_union_l, elem_of_singleton_2.
    + intros q q' [= <-] [= <-]. reflexivity.
  - eexists. split.
    { unfold_M. cbn [_mode]. rewrite Hm. reflexivity. }
    repeat apply conj; try reflexivity.
    + discriminate.
    + intros q q' [= <-] [= <-]. reflexivity.
Qed.

(** A component registered by itself with no poller in the tree, opened for
    reading and writing. *)
Lemma ready_opens_and_registers_reader_witness :
  exists s',
    _on_ready (OpenedAs 3) (snd (_on_started (init "f" "r+" BUFSIZE)))
    = (Ok tt, s')
    /\ opened s' = true /\ reading s' = true
    /\ fired s' = [Ready; Opened "f" "r+"].
Proof.
  destruct (ready_opens_and_registers_reader
              (snd (_on_started (init "f" "r+" BUFSIZE))) 3 0)
    as ((s' & He & _ & Ho & F & _ & R & _) & _).
  - reflexivity.
  - exists s'. repeat apply conj; [exact He | exact Ho | | exact F].
    apply R. reflexivity.
Defined.

(** *** What no operation does *)

Lemma fd_after_close s : _fd (after_close s) = _fd s.
Proof. reflexivity. Qed.





(** *** A close while writes are pending *)

(** While writes are pending [close] only notes the request: it fires
    nothing, keeps the pending writes and the registrations, and a second
    [close] changes nothing at all.  This holds before the descriptor is
    opened too. *)
Theorem close_with_pending_writes_only_sets_the_flag (s : state) :
  _buffer s <> [] ->
  exists s',
    close s = (Ok tt, s') /\ s' = set_closeflag true s
    /\ close s' = (Ok tt, s').
Proof.
  intros Hb. exists (set_closeflag true s).
  destruct s as [md bs fn fd pl [|c buf] cf conn evs sk]; [now elim Hb|].
  destruct cf; repeat apply conj; reflexivity.
Qed.

Lemma close_with_pending_writes_only_sets_the_flag_witness :
  exists s',
    close one_pending = (Ok tt, s') /\ s' = set_closeflag true one_pending
    /\ close s' = (Ok tt, s').
Proof.
  apply (close_with_pending_writes_only_sets_the_flag one_pending).
  vm_compute. discriminate.
Defined.

Lemma pending_settle t : (pending (settle t) <= pending t)%nat.
Proof.
  unfold settle, pending. destruct (_buffer t) eqn:Hb; [|now rewrite Hb].
  destruct (_closeflag t); [cbn; lia|].
  destruct (writing t); cbn; rewrite ?Hb; cbn; lia.
Qed.

Lemma pending_after_notify s n :
  (0 < n)%nat ->
  (pending (after (ev_write (Wrote n)) s) <= pending s - 1)%nat.
Proof.
  intros Hn. cbn [after]. etransitivity; [apply pending_settle|].
  unfold pending. destruct (_buffer s) as [|c rest] eqn:Hb.
  - rewrite Hb. cbn. lia.
  - unfold after_write. cbv zeta. destruct (Nat.ltb_spec n (length c)).
    + cbn [_buffer set_buffer set_sink concat length].
      rewrite !length_app, length_drop. lia.
    + cbn [_buffer set_buffer set_sink concat length].
      rewrite !length_app. lia.
Qed.

Lemma drain_step total evs t n :
  draining total evs t \/ drained total evs t ->
  draining total evs (after (ev_write (Wrote n)) t)
  \/ drained total evs (after (ev_write (Wrote n)) t).
Proof.
  intros [(Hc & Hb & Hf & Hs) | (Hc & Hb & Hf & Hs & Hw)]; cbn [after].
  - destruct (_buffer t) as [|c rest] eqn:Hbt; [now elim Hb|].
    unfold after_write. cbv zeta. cbn [concat] in Hs.
    destruct (Nat.ltb_spec n (length c)).
    + left. rewrite settle_nonempty by discriminate.
      repeat apply conj; try assumption; try discriminate.
      cbn [sink _buffer set_buffer set_sink concat].
      rewrite <- Hs, <- !app_assoc. f_equal.
      now rewrite app_assoc, take_drop.
    + rewrite take_ge by lia. destruct rest as [|c' rest'].
      * right. rewrite settle_flagged; [|reflexivity | exact Hc].
        repeat apply conj; try reflexivity.
        -- cbn. now rewrite Hf.
        -- cbn. rewrite <- Hs. cbn. now rewrite app_nil_r.
        -- apply writing_after_close.
      * left. rewrite settle_nonempty by discriminate.
        repeat apply conj; try assumption; try discriminate.
        cbn [sink _buffer set_buffer set_sink]. rewrite <- Hs.
        now rewrite <- app_assoc.
  - right. rewrite Hb. unfold settle. rewrite Hb, Hc, Hw.
    repeat apply conj; assumption.
Qed.

(** A close requested while writes are pending loses none of them.
    Through the writer notifications that follow, whatever number of bytes
    each brings to the sink, the component is either still draining, with
    nothing fired, the request standing and the sink followed by the queue
    equal to what it was at the request, or closed, with [Closed] fired
    once, after the sink has received all of it.  It is closed once the
    notifications have each taken a byte and are as many as the bytes and
    chunks that were pending. *)
Theorem requested_close_drains_first (s : state) (ns : list nat) :
  opened s = true -> _closeflag s = false -> _buffer s <> [] ->
  exists s',
    run (call_close :: notifications ns) s = (Ok tt, s')
    /\ (draining (sink s ++ concat (_buffer s)) (fired s) s'
        \/ drained (sink s ++ concat (_buffer s)) (fired s) s')
    /\ (Forall (fun n => 0 < n)%nat ns -> (pending s <= length ns)%nat ->
        drained (sink s ++ concat (_buffer s)) (fired s) s').
Proof.
  intros H Hc Hb.
  destruct (run_opened s (call_close :: notifications ns) H)
    as (s' & Hr & _ & Hs').
  exists s'. split; [exact Hr|].
  unfold afters in Hs'. cbn [fold_left after] in Hs'.
  destruct (_buffer s) as [|c rest] eqn:Hbs; [now elim Hb|].
  set (s1 := set_closeflag true s) in *.
  set (total := sink s ++ concat (c :: rest)).
  assert (H1 : draining total (fired s) s1).
  { subst s1. repeat apply conj; cbn; try reflexivity.
    - rewrite Hbs. discriminate.
    - subst total. now rewrite Hbs. }
  assert (Hinv : forall l t,
    draining total (fired s) t \/ drained total (fired s) t ->
    draining total (fired s)
      (fold_left (fun t o => after o t) (notifications l) t)
    \/ drained total (fired s)
         (fold_left (fun t o => after o t) (notifications l) t)).
  { induction l as [|n l IH]; intros t Ht; [exact Ht|].
    cbn [notifications map fold_left]. apply IH. now apply drain_step. }
  split; [rewrite Hs'; apply Hinv; now left|].
  intros Hpos Hlen.
  assert (Hpend : forall l t, Forall (fun n => 0 < n)%nat l ->
    (pending (fold_left (fun t o => after o t) (notifications l) t)
     <= pending t - length l)%nat).
  { induction l as [|n l IH]; intros t Hl; cbn [notifications map fold_left].
    - cbn. lia.
    - inversion Hl as [|? ? Hn Hl']; subst.
      etransitivity; [apply (IH _ Hl')|].
      pose proof (pending_after_notify t n Hn). cbn [length]. lia. }
  specialize (Hpend ns s1 Hpos). rewrite <- Hs' in Hpend.
  assert (Hp1 : pending s1 = pending s) by reflexivity.
  destruct (Hinv ns s1 (or_introl H1)) as [(_ & Hne & _) | Hd];
    rewrite <- Hs' in *; [|exact Hd].
  exfalso. rewrite Hp1 in Hpend.
  assert (Hz : pending s' = 0%nat) by lia.
  unfold pending in Hz.
  destruct (_buffer s'); [now elim Hne | cbn in Hz; lia].
Qed.

(** Two chunks pending, a close, and a sink that takes three bytes, then
    one at a time. *)
Lemma requested_close_drains_first_witness :
  exists s',
    run (call_close :: notifications [3; 1; 1; 1; 1; 1]%nat) two_pending = (Ok tt, s')
    /\ drained (b "abcd") [Ready; Opened "f" "r+"] s'.
Proof.
  destruct (requested_close_drains_first two_pending [3; 1; 1; 1; 1; 1]%nat)
    as (s' & Hr & _ & Hd).
  - reflexivity.
  - reflexivity.
  - vm_compute. discriminate.
  - exists s'. split; [exact Hr|]. apply Hd.
    + repeat constructor.
    + vm_compute. lia.
Defined.

(** *** Reads *)



(** A read that would block leaves the component exactly as it was.  A
    read that fails with any other [errno] fires [Error] and then closes
    at once, without the courtesy of a drain: [Closed] is fired, the
    pending writes are dropped with nothing more reaching the sink, the
    close request is forgotten and the descriptor leaves the poller. *)
Theorem read_fault_closes_without_drain (s : state) (errno : Z) :
  opened s = true ->
  _read (ReadFault EWOULDBLOCK) s = (Ok tt, s)
  /\ (errno <> EWOULDBLOCK ->
      exists s',
        _read (ReadFault errno) s = (Ok tt, s')
        /\ fired s' = fired s ++ [Error (SocketError errno); Closed]
        /\ _buffer s' = [] /\ sink s' = sink s /\ _closeflag s' = false
        /\ reading s' = false /\ writing s' = false).
Proof.
  intros H. split; [now rewrite (_read_opened s _ H)|].
  intros He. eexists. split; [now apply _read_opened|].
  unfold after_read. destruct (Z.eqb_spec errno EWOULDBLOCK); [contradiction|].
  repeat apply conj; try reflexivity.
  - cbn. now rewrite <- app_assoc.
  - apply reading_after_close.
  - apply writing_after_close.
Qed.

(** A connection reset (errno 104) while two chunks are pending. *)
Lemma read_fault_closes_without_drain_witness :
  exists s',
    _read (ReadFault 104) two_pending = (Ok tt, s')
    /\ fired s' = [Ready; Opened "f" "r+"; Error (SocketError 104); Closed]
    /\ _buffer s' = [] /\ sink s' = [].
Proof.
  destruct (proj2 (read_fault_closes_without_drain two_pending 104 eq_refl))
    as (s' & Hr & F & B & S & _); [discriminate|].
  exists s'. repeat apply conj; assumption.
Defined.

(** *** Forced closes *)

(** [prepare_unregister] for another subtree changes nothing.  For the
    component's own subtree, as [_disconnect], it closes at once: [Closed]
    is fired, the pending writes are dropped and never reach the sink, a
    close request is forgotten, and the descriptor leaves the poller. *)
Theorem unregister_closes_without_drain (s : state) :
  opened s = true ->
  _on_prepare_unregister false s = (Ok tt, s)
  /\ (exists s',
        _on_prepare_unregister true s = (Ok tt, s')
        /\ __on_disconnect s = (Ok tt, s')
        /\ fired s' = fired s ++ [Closed]
        /\ _buffer s' = [] /\ sink s' = sink s /\ _closeflag s' = false
        /\ reading s' = false /\ writing s' = false
        /\ forall ns, exists s'',
             run (notifications ns) s' = (Ok tt, s'')
             /\ sink s'' = sink s /\ fired s'' = fired s').
Proof.
  intros H. split; [reflexivity|]. exists (after_close s).
  repeat apply conj; try reflexivity.
  - now apply _close_opened.
  - now apply _close_opened.
  - apply reading_after_close.
  - apply writing_after_close.
  - intros ns.
    assert (Ho : opened (after_close s) = true)
      by now rewrite opened_after_close.
    destruct (run_opened _ (notifications ns) Ho) as (s'' & Hr & _ & Hs'').
    exists s''. split; [exact Hr|].
    destruct (conserve_afters (notifications ns) (after_close s)
                (wr_only_notifications ns) eq_refl) as (_ & F & C & P).
    rewrite <- Hs'' in *. split; [|exact F].
    rewrite submitted_notifications in C, P. cbn in C, P.
    unfold pending in P. destruct (_buffer s''); [|cbn in P; lia].
    cbn in C. now rewrite !app_nil_r in C.
Qed.

Lemma unregister_closes_without_drain_witness :
  exists s',
    _on_prepare_unregister true two_pending = (Ok tt, s')
    /\ fired s' = [Ready; Opened "f" "r+"; Closed]
    /\ _buffer s' = [] /\ sink s' = [].
Proof.
  destruct (proj2 (unregister_closes_without_drain two_pending eq_refl))
    as (s' & Hr & _ & F & B & S & _).
  exists s'. repeat apply conj; assumption.
Defined.

(** *** A writer notification with nothing to write *)

(** A writer notification that finds no pending write and no close
    request attempts no write, whatever the operating system would have
    answered: the sink and the events are as they were, the component is
    no longer a writer, and it is a reader if it was. *)
Theorem idle_notification_only_deregisters (s : state) (o : write_outcome) :
  opened s = true -> _buffer s = [] -> _closeflag s = false ->
  exists s',
    __on_write o s = (Ok tt, s')
    /\ sink s' = sink s /\ fired s' = fired s /\ _buffer s' = []
    /\ writing s' = false /\ reading s' = reading s /\ _fd s' = _fd s.
Proof.
  intros H Hb Hc. eexists. split; [now apply on_write_opened|].
  rewrite Hb. unfold settle. rewrite Hb, Hc.
  destruct (writing s) eqn:Hw.
  - repeat apply conj; try reflexivity; try assumption.
    + apply writing_removed.
    + clear. now destruct s as [md bs fn fd [pl|] buf cf conn evs sk].
  - repeat apply conj; try reflexivity; assumption.
Qed.

(** A stray writer notification on a freshly opened component. *)
Lemma idle_notification_only_deregisters_witness :
  exists s',
    __on_write (WriteFault EPIPE) (fresh "f" "r+" 3) = (Ok tt, s')
    /\ sink s' = [] /\ fired s' = [Ready; Opened "f" "r+"]
    /\ writing s' = false /\ reading s' = true.
Proof.
  destruct (idle_notification_only_deregisters (fresh "f" "r+" 3)
              (WriteFault EPIPE))
    as (s' & Hr & S & F & _ & W & R & _); try reflexivity.
  exists s'. repeat apply conj; assumption.
Defined.

End FileProps.

(** ** Properties of the idle fall-back generator *)
Module FallBackGeneratorProps.
Import FallBackGenerator.

(** *** Runs *)

Lemma step_Entry c t w k :
  t <> 0 -> _on_generate_events (mkState Entry c t w k) = mkState Branch false t w k.
Proof.
  intros Ht. unfold _on_generate_events; cbn.
  now destruct (Z.eqb_spec t 0).
Qed.

Lemma step_Branch_positive c t w k :
  0 < t -> _on_generate_events (mkState Branch c t w k) = mkState CallWait c t w k.
Proof.
  intros Ht. unfold _on_generate_events; cbn.
  destruct (Z.ltb_spec 0 t); [reflexivity | lia].
Qed.

Lemma step_Branch_other c t w k :
  t <= 0 -> _on_generate_events (mkState Branch c t w k) = mkState Loop c t w k.
Proof.
  intros Ht. unfold _on_generate_events; cbn.
  destruct (Z.ltb_spec 0 t); [lia | reflexivity].
Qed.

Lemma step_Loop_negative c t w k :
  t < 0 ->
  _on_generate_events (mkState Loop c t w k)
  = mkState (SliceWait 10000) c t (w ++ [10000]) k.
Proof.
  intros Ht. unfold _on_generate_events; cbn.
  destruct (Z.ltb_spec t 0); [reflexivity | lia].
Qed.

Lemma step_Loop_other c t w k :
  0 <= t -> _on_generate_events (mkState Loop c t w k) = mkState (Returned true) c t w k.
Proof.
  intros Ht. unfold _on_generate_events; cbn.
  destruct (Z.ltb_spec t 0); [lia | reflexivity].
Qed.

Lemma run_app a1 a2 s : run (a1 ++ a2) s = run a2 (run a1 s).
Proof. unfold run. apply fold_left_app. Qed.

Lemma reduce_to_zero current : reduce_time_left 0 current = 0.
Proof.
  unfold reduce_time_left. cbn [Z.leb Z.compare andb].
  destruct (Z.ltb_spec current 0); [reflexivity|].
  destruct (Z.ltb_spec 0 current); cbn; lia.
Qed.

(** While the handler is inside a wait, the other threads and the clock
    leave it there, a set flag stays set, and nothing is added to the
    timeouts seen. *)
Lemma others_during_bounded_wait es s remaining :
  at_pc s = BoundedWait remaining ->
  at_pc (run (map env es) s) = BoundedWait (remaining - ticks es)
  /\ clock (run (map env es) s) = clock s + ticks es
  /\ waits (run (map env es) s) = waits s
  /\ (_continue s = true -> _continue (run (map env es) s) = true).
Proof.
  revert s remaining. induction es as [|e es IH]; intros s remaining Hat.
  - cbn. rewrite Hat. repeat apply conj; [f_equal; lia | lia | reflexivity | auto].
  - cbn [map run fold_left]. fold (run (map env es) (act (env e) s)).
    destruct e as [| |t]; cbn [act ticks].
    + destruct (IH (pass s) (remaining - 1)) as (A & B & C & D);
        [unfold pass; now rewrite Hat|].
      rewrite A, B, C. cbn.
      repeat apply conj; [f_equal; lia | lia | reflexivity | exact D].
    + destruct (IH (resume s) remaining Hat) as (A & B & C & D).
      rewrite A, B, C. repeat apply conj; try reflexivity. intros _. now apply D.
    + destruct (IH (mkState (at_pc s) (_continue s)
                      (reduce_time_left t (time_left s)) (waits s) (clock s))
                   remaining Hat) as (A & B & C & D).
      rewrite A, B, C. repeat apply conj; try reflexivity. exact D.
Qed.

Lemma ticks_during_slice (k : nat) s remaining :
  at_pc s = SliceWait remaining ->
  run (repeat (env tick) k) s
  = mkState (SliceWait (remaining - Z.of_nat k)) (_continue s) (time_left s)
            (waits s) (clock s + Z.of_nat k).
Proof.
  revert s remaining. induction k as [|k IH]; intros s remaining Hat.
  - cbn. destruct s as [p c tl w cl]; cbn in *. subst p.
    f_equal; [f_equal; lia | lia].
  - cbn [repeat run fold_left act]. fold (run (repeat (env tick) k) (pass s)).
    rewrite (IH (pass s) (remaining - 1)) by (unfold pass; now rewrite Hat).
    cbn. f_equal; [f_equal; lia | lia].
Qed.

(** While no thread touches a negative [time_left], the handler stays in
    its loop. *)
Section Unbounded.

Variable tl : Z.
Hypothesis unbounded : tl < 0.

Lemma in_loop_act a s :
  quiet a = true -> in_loop tl s -> in_loop tl (act a s).
Proof.
  intros Hq (Ht & Hp & Hw). destruct s as [p c t w cl]. cbn in Ht, Hp, Hw.
  subst t. destruct a as [|[| |t]]; try discriminate Hq; cbn.
  - unfold _on_generate_events, wait_over; cbn.
    destruct p; try contradiction.
    + destruct (Z.eqb_spec tl 0); [lia|]. now split.
    + destruct (Z.ltb_spec 0 tl); [lia|]. now split.
    + destruct (Z.ltb_spec tl 0); [|lia]. repeat split.
      apply Forall_app. split; [exact Hw | now constructor].
    + destruct (c || (remaining <=? 0)); now split.
  - unfold pass; cbn. destruct p; try contradiction; now split.
  - now split.
Qed.

Lemma in_loop_run acts s :
  forallb quiet acts = true -> in_loop tl s -> in_loop tl (run acts s).
Proof.
  revert s. induction acts as [|a acts IH]; intros s Hq Hs.
  - exact Hs.
  - cbn [forallb] in Hq. apply andb_prop in Hq as [Ha Hq].
    cbn [run fold_left]. apply (IH _ Hq). now apply in_loop_act.
Qed.

End Unbounded.

(** *** The bounded wait *)

(** C9: the handler entered with [time_left > 0] is inside
    [self._continue.wait(event.time_left)].  Whatever the other threads and
    the clock did since, once one of them calls [resume] the wait is over at
    the handler's next step, however much of the timeout remains: the time
    passed is what the others took, not the timeout.  The step after that
    is [reduce_time_left(0)]: the handler returns [True] with [time_left]
    at 0. *)
Theorem resume_ends_the_bounded_wait
    (tl : Z) (flag : bool) (before others : list env_action) :
  0 < tl ->
  let entered := run [step; step; step] (start tl flag) in
  let woken :=
    run (map env before ++ env call_resume :: map env others ++ [step])
        entered in
  at_pc entered = BoundedWait tl /\ waits entered = [tl]
  /\ _continue entered = false
  /\ at_pc woken = Normalize
  /\ clock woken = ticks before + ticks others
  /\ at_pc (act step woken) = Returned true
  /\ time_left (act step woken) = 0.
Proof.
  intros Htl. cbv zeta.
  assert (He : run [step; step; step] (start tl flag)
               = mkState (BoundedWait tl) false tl [tl] 0).
  { unfold run, start. cbn [fold_left act].
    rewrite step_Entry, step_Branch_positive by lia. reflexivity. }
  rewrite He. cbn [at_pc waits _continue].
  repeat (split; [reflexivity|]).
  rewrite run_app.
  set (s0 := mkState (BoundedWait tl) false tl [tl] 0).
  destruct (others_during_bounded_wait before s0 tl eq_refl) as (A & B & C & _).
  set (s1 := run (map env before) s0) in *.
  cbn [run fold_left act].
  fold (run (map env others ++ [step]) (resume s1)). rewrite run_app.
  destruct (others_during_bounded_wait others (resume s1) (tl - ticks before) A)
    as (A' & B' & C' & D').
  set (s2 := run (map env others) (resume s1)) in *.
  specialize (D' eq_refl).
  assert (Hw : run [step] s2
               = mkState Normalize (_continue s2) (time_left s2) (waits s2)
                         (clock s2)).
  { cbn. unfold _on_generate_events, wait_over. now rewrite A', D'. }
  rewrite Hw. cbn [at_pc clock].
  split; [reflexivity|]. split; [rewrite B'; cbn; rewrite B; cbn; lia|].
  cbn. split; [reflexivity | apply reduce_to_zero].
Qed.

(** A wait of an hour, half a minute gone, then [resume]. *)
Lemma resume_ends_the_bounded_wait_witness :
  let entered := run [step; step; step] (start 3600 true) in
  let woken :=
    run (map env (repeat tick 30) ++ env call_resume :: map env [] ++ [step])
        entered in
  at_pc entered = BoundedWait 3600 /\ waits entered = [3600]
  /\ _continue entered = false
  /\ at_pc woken = Normalize
  /\ clock woken = ticks (repeat tick 30) + ticks []
  /\ at_pc (act step woken) = Returned true
  /\ time_left (act step woken) = 0.
Proof.
  apply (resume_ends_the_bounded_wait 3600 true (repeat tick 30) []). lia.
Defined.

(** Without [resume] the same wait is still in progress. *)
Example bounded_wait_blocks_until_timeout :
  at_pc (run ([step; step; step] ++ map env (repeat tick 30) ++ [step])
             (start 3600 true))
  = BoundedWait 3570.
Proof. vm_compute. reflexivity. Qed.

(** *** The unbounded wait *)

(** C8, as stated, fails twice: the timeout handed to [wait] is 10000
    seconds, a thousand times ten, and after [resume] has set the wake
    signal the handler, far from returning, goes round its loop and waits
    again, no time passing. *)
Lemma wake_signal_alone_does_not_end_the_idle_loop :
  let s :=
    run [step; step; step; env call_resume; step; step; step; step]
        (start (-1) false) in
  waits s = [10000; 10000; 10000] /\ 10000 = 1000 * 10
  /\ _continue s = true /\ at_pc s = SliceWait 10000
  /\ has_returned s = false /\ clock s = 0.
Proof. vm_compute. repeat apply conj; reflexivity. Qed.

(** C8, amended: entered with [time_left < 0] the handler clears the wake
    signal and waits in slices of 10000 seconds, a constant of the code.
    A slice lasts its 10000 seconds unless the wake signal is set.  As
    long as no thread makes [time_left] non-negative the handler does not
    return, wake signal or not, and every timeout it has handed to [wait]
    is 10000.  Once a thread has made [time_left] non-negative and called
    [resume], the handler returns [True] within two steps. *)
Theorem unbounded_idle_waits_in_slices
    (tl : Z) (flag : bool) (acts : list action) (t : Z) (k : nat) :
  tl < 0 ->
  let entered := run [step; step; step] (start tl flag) in
  at_pc entered = SliceWait 10000 /\ waits entered = [10000]
  /\ _continue entered = false
  /\ (Z.of_nat k < 10000 ->
      at_pc (act step (run (repeat (env tick) k) entered))
      = SliceWait (10000 - Z.of_nat k))
  /\ at_pc (act step (run (repeat (env tick) (Z.to_nat 10000)) entered))
     = Loop
  /\ (forallb quiet acts = true ->
      has_returned (run acts (start tl flag)) = false
      /\ Forall (eq 10000) (waits (run acts (start tl flag))))
  /\ (0 <= t ->
      at_pc (run [env (call_reduce t); env call_resume; step; step] entered)
      = Returned true).
Proof.
  intros Htl. cbv zeta.
  assert (He : run [step; step; step] (start tl flag)
               = mkState (SliceWait 10000) false tl [10000] 0).
  { unfold run, start. cbn [fold_left act].
    rewrite step_Entry, step_Branch_other, step_Loop_negative by lia.
    reflexivity. }
  rewrite He. cbn [at_pc waits _continue].
  repeat (split; [reflexivity|]).
  split; [|split; [|split]].
  - intros Hk.
    rewrite (ticks_during_slice k
               (mkState (SliceWait 10000) false tl [10000] 0) 10000 eq_refl).
    cbn. unfold _on_generate_events, wait_over; cbn.
    destruct (Z.leb_spec (10000 - Z.of_nat k) 0); [lia | reflexivity].
  - rewrite (ticks_during_slice (Z.to_nat 10000)
               (mkState (SliceWait 10000) false tl [10000] 0) 10000 eq_refl).
    rewrite Z2Nat.id by lia. reflexivity.
  - intros Hq.
    assert (Hs : in_loop tl (start tl flag))
      by (repeat split; constructor).
    destruct (in_loop_run tl Htl acts _ Hq Hs) as (_ & Hp & Hw).
    split; [|exact Hw]. unfold has_returned.
    now destruct (at_pc (run acts (start tl flag))).
  - intros Ht. unfold run. cbn [fold_left act]. unfold resume.
    cbn [at_pc _continue time_left waits clock].
    assert (Hr : reduce_time_left t tl = t).
    { unfold reduce_time_left.
      destruct (Z.leb_spec 0 t); [|lia].
      now destruct (Z.ltb_spec tl 0); [|lia]. }
    rewrite Hr.
    assert (Hs : _on_generate_events (mkState (SliceWait 10000) true t [10000] 0)
                 = mkState Loop true t [10000] 0) by reflexivity.
    rewrite Hs, step_Loop_other by lia. reflexivity.
Qed.

(** No deadline known; the wake signal is set after the first slice has
    begun, and then [time_left] is brought to 0. *)
Lemma unbounded_idle_waits_in_slices_witness :
  let entered := run [step; step; step] (start (-1) false) in
  at_pc entered = SliceWait 10000 /\ waits entered = [10000]
  /\ _continue entered = false
  /\ (Z.of_nat 3 < 10000 ->
      at_pc (act step (run (repeat (env tick) 3) entered))
      = SliceWait (10000 - Z.of_nat 3))
  /\ at_pc (act step (run (repeat (env tick) (Z.to_nat 10000)) entered))
     = Loop
  /\ (forallb quiet [step; step; step; env call_resume; step; step] = true ->
      has_returned
        (run [step; step; step; env call_resume; step; step]
             (start (-1) false)) = false
      /\ Forall (eq 10000)
           (waits (run [step; step; step; env call_resume; step; step]
                       (start (-1) false))))
  /\ (0 <= 0 ->
      at_pc (run [env (call_reduce 0); env call_resume; step; step] entered)
      = Returned true).
Proof.
  apply (unbounded_idle_waits_in_slices (-1) false
           [step; step; step; env call_resume; step; step] 0 3).
  lia.
Defined.

(** *** Nothing to wait for *)

Lemma reduce_keeps_zero t : reduce_time_left t 0 = 0.
Proof.
  unfold reduce_time_left. cbn [Z.ltb Z.compare orb].
  destruct (Z.leb_spec 0 t); cbn [andb]; [|reflexivity].
  destruct (Z.ltb_spec t 0); [lia | reflexivity].
Qed.

Lemma others_before_entry es s :
  at_pc s = Entry -> time_left s = 0 ->
  at_pc (run (map env es) s) = Entry
  /\ time_left (run (map env es) s) = 0
  /\ waits (run (map env es) s) = waits s
  /\ clock (run (map env es) s) = clock s + ticks es.
Proof.
  revert s. induction es as [|e es IH]; intros s Hat Htl.
  - cbn. repeat apply conj; auto. lia.
  - cbn [map run fold_left]. fold (run (map env es) (act (env e) s)).
    destruct e as [| |t]; cbn [act ticks].
    + destruct (IH (pass s)) as (A & B & C & D);
        [unfold pass; now rewrite Hat | exact Htl |].
      rewrite A, B, C, D. cbn. repeat apply conj; auto. lia.
    + destruct (IH (resume s) Hat Htl) as (A & B & C & D).
      rewrite A, B, C, D. repeat apply conj; auto.
    + destruct (IH (mkState (at_pc s) (_continue s)
                      (reduce_time_left t (time_left s)) (waits s) (clock s)))
        as (A & B & C & D); [exact Hat | cbn; rewrite Htl; apply reduce_keeps_zero |].
      rewrite A, B, C, D. repeat apply conj; auto.
Qed.

(** Invoked with [time_left = 0] the handler answers [True] at its first
    step whatever the other threads did in the meantime: it waits for
    nothing, takes no time of its own, leaves [time_left] at 0 and, unlike
    on its other paths, does not clear the wake signal. *)
Theorem no_wait_when_time_left_is_zero (flag : bool) (es : list env_action) :
  let before := run (map env es) (start 0 flag) in
  let s := act step before in
  at_pc s = Returned true /\ waits s = [] /\ time_left s = 0
  /\ _continue s = _continue before /\ clock s = ticks es.
Proof.
  cbv zeta.
  destruct (others_before_entry es (start 0 flag) eq_refl eq_refl)
    as (A & B & C & D).
  destruct (run (map env es) (start 0 flag)) as [p c t w k].
  cbn in A, B, C, D. subst p t w k. cbn. repeat apply conj; reflexivity.
Qed.

(** *** The timeout of the bounded wait *)

Lemma ticks_during_bounded_wait (k : nat) s remaining :
  at_pc s = BoundedWait remaining ->
  run (repeat (env tick) k) s
  = mkState (BoundedWait (remaining - Z.of_nat k)) (_continue s) (time_left s)
            (waits s) (clock s + Z.of_nat k).
Proof.
  revert s remaining. induction k as [|k IH]; intros s remaining Hat.
  - cbn. destruct s as [p c tl w cl]; cbn in *. subst p.
    f_equal; [f_equal; lia | lia].
  - cbn [repeat run fold_left act]. fold (run (repeat (env tick) k) (pass s)).
    rewrite (IH (pass s) (remaining - 1)) by (unfold pass; now rewrite Hat).
    cbn. f_equal; [f_equal; lia | lia].
Qed.

(** With no [resume] the bounded wait lasts its timeout: entered with
    [time_left > 0], the handler is still inside the wait, and a step of
    it changes nothing, as long as fewer seconds than that have passed;
    after that many seconds the wait is over, and the handler answers
    [True] with [time_left] at 0, having waited once, with that timeout. *)
Theorem bounded_wait_lasts_its_timeout (tl : Z) (flag : bool) (k : nat) :
  0 < tl ->
  let entered := run [step; step; step] (start tl flag) in
  let out := run (repeat (env tick) (Z.to_nat tl) ++ [step; step]) entered in
  (Z.of_nat k < tl ->
   run (repeat (env tick) k ++ [step]) entered
   = run (repeat (env tick) k) entered
   /\ at_pc (run (repeat (env tick) k) entered)
      = BoundedWait (tl - Z.of_nat k))
  /\ at_pc out = Returned true /\ time_left out = 0 /\ clock out = tl
  /\ waits out = [tl] /\ _continue out = false.
Proof.
  intros Htl. cbv zeta.
  assert (He : run [step; step; step] (start tl flag)
               = mkState (BoundedWait tl) false tl [tl] 0).
  { unfold run, start. cbn [fold_left act].
    rewrite step_Entry, step_Branch_positive by lia. reflexivity. }
  rewrite He. split.
  - intros Hk. rewrite run_app.
    rewrite (ticks_during_bounded_wait k
               (mkState (BoundedWait tl) false tl [tl] 0) tl eq_refl).
    split; [|reflexivity].
    cbn. unfold _on_generate_events, wait_over; cbn.
    destruct (Z.leb_spec (tl - Z.of_nat k) 0); [lia | reflexivity].
  - rewrite run_app.
    rewrite (ticks_during_bounded_wait (Z.to_nat tl)
               (mkState (BoundedWait tl) false tl [tl] 0) tl eq_refl).
    rewrite Z2Nat.id by lia. cbn.
    unfold _on_generate_events at 2, wait_over; cbn.
    destruct (Z.leb_spec (tl - tl) 0); [|lia].
    cbn. repeat apply conj; try reflexivity; try apply reduce_to_zero; lia.
Qed.

(** A wait of five seconds, three of them gone. *)
Lemma bounded_wait_lasts_its_timeout_witness :
  at_pc (run (repeat (env tick) 3 ++ [step])
             (run [step; step; step] (start 5 true)))
  = BoundedWait 2
  /\ at_pc (run (repeat (env tick) (Z.to_nat 5) ++ [step; step])
                (run [step; step; step] (start 5 true)))
     = Returned true.
Proof.
  destruct (bounded_wait_lasts_its_timeout 5 true 3) as (B & R & _); [lia|].
  destruct B as [Heq Hat]; [lia|].
  split; [rewrite Heq; exact Hat | exact R].
Defined.

(** *** A wake-up before the wait *)

(** A [resume] that comes before the handler has taken the lock is erased
    by [self._continue.clear()]: the wait that follows does not see it and
    blocks.  A [resume] that comes after the clearing, even before the wait
    has begun, is kept: the wait is over at once, no time passing. *)
Theorem resume_before_the_clear_is_lost (tl : Z) (flag : bool) :
  0 < tl ->
  let early := run [env call_resume; step; step; step; step] (start tl flag) in
  let late := run [step; env call_resume; step; step; step] (start tl flag) in
  at_pc early = BoundedWait tl /\ _continue early = false
  /\ at_pc late = Normalize /\ _continue late = true /\ clock late = 0.
Proof.
  intros Htl. cbv zeta. unfold run, start. cbn [fold_left act].
  repeat first
    [ rewrite step_Entry by lia
    | rewrite step_Branch_positive by lia
    | progress unfold resume
    | progress cbn [at_pc _continue time_left waits clock] ].
  unfold _on_generate_events, wait_over; cbn.
  destruct (Z.leb_spec tl 0); [lia|]. repeat apply conj; reflexivity.
Qed.

Lemma resume_before_the_clear_is_lost_witness :
  at_pc (run [env call_resume; step; step; step; step] (start 3600 false))
  = BoundedWait 3600
  /\ at_pc (run [step; env call_resume; step; step; step] (start 3600 false))
     = Normalize.
Proof.
  destruct (resume_before_the_clear_is_lost 3600 false) as (A & _ & B & _);
    [lia | now split].
Defined.

(** *** In every interleaving *)

Lemma reduce_keeps_nonnegative t current :
  0 <= current -> 0 <= reduce_time_left t current.
Proof.
  intros Hc. unfold reduce_time_left.
  destruct (Z.leb_spec 0 t); cbn [andb]; [|exact Hc].
  now destruct ((current <? 0) || (t <? current)).
Qed.

Lemma sound_act a s : sound s -> sound (act a s).
Proof.
  intros (Hw & Hc & Hr). destruct s as [p c t w k]. cbn in Hw, Hc, Hr.
  destruct a as [|[| |t']]; cbn [act].
  - unfold _on_generate_events, wait_over; cbn.
    destruct p.
    + destruct (t =? 0); repeat split; auto; cbn; try discriminate.
      now intros r [= <-].
    + destruct (Z.ltb_spec 0 t); repeat split; auto; cbn; try discriminate.
      intros _. lia.
    + repeat split; cbn; try discriminate.
      apply Forall_app. split; [exact Hw|]. constructor; auto.
    + destruct (c || (remaining <=? 0)); repeat split; auto; cbn;
        discriminate.
    + repeat split; auto; cbn; try discriminate. now intros r [= <-].
    + destruct (t <? 0); repeat split; cbn; auto; try discriminate.
      * apply Forall_app. split; [exact Hw|]. constructor; [lia | constructor].
      * now intros r [= <-].
    + destruct (c || (remaining <=? 0)); repeat split; auto; cbn;
        discriminate.
    + repeat split; auto.
  - unfold pass; cbn. destruct p; repeat split; auto; cbn; discriminate.
  - repeat split; auto.
  - repeat split; auto. cbn. intros Hp. now apply reduce_keeps_nonnegative, Hc.
Qed.

(** Whatever the handler is invoked with and however its steps interleave
    with the other threads and the clock, it never hands a negative timeout
    to [wait], not even when [time_left] is lowered between its test and
    its call, and it never answers anything but [True]. *)
Theorem never_waits_with_negative_timeout
    (t : Z) (flag : bool) (acts : list action) :
  Forall (fun w => 0 <= w) (waits (run acts (start t flag)))
  /\ (forall r, at_pc (run acts (start t flag)) = Returned r -> r = true).
Proof.
  assert (Hs : sound (run acts (start t flag))).
  { assert (H0 : sound (start t flag)).
    { repeat split; cbn; [constructor | discriminate | discriminate]. }
    revert H0. generalize (start t flag). unfold run.
    induction acts as [|a acts IH]; intros s Hs; [exact Hs|].
    cbn [fold_left]. apply IH. now apply sound_act. }
  destruct Hs as (Hw & _ & Hr). now split.
Qed.

End FallBackGeneratorProps.

(** ** Properties of the fall-back error handler *)
Module FallBackErrorHandlerProps.
Import FallBackErrorHandler.

Lemma append_nil_r x : String.append x EmptyString = x.
Proof.
  induction x as [|c x IH]; [reflexivity|].
  change (String c (String.append x EmptyString) = String c x). now f_equal.
Qed.

Lemma append_assoc x y z :
  String.append (String.append x y) z = String.append x (String.append y z).
Proof.
  induction x as [|c x IH]; [reflexivity|].
  change (String c (String.append (String.append x y) z)
          = String c (String.append x (String.append y z))).
  now f_equal.
Qed.

Lemma concat_cons x l :
  String.concat EmptyString (x :: l)
  = String.append x (String.concat EmptyString l).
Proof.
  destruct l as [|y l]; cbn [String.concat]; [|reflexivity].
  symmetry. apply append_nil_r.
Qed.

Lemma concat_snoc l x :
  String.concat EmptyString (l ++ [x])
  = String.append (String.concat EmptyString l) x.
Proof.
  induction l as [|y l IH].
  - reflexivity.
  - change ((y :: l) ++ [x]) with (y :: (l ++ [x])).
    now rewrite !concat_cons, IH, append_assoc.
Qed.

(** Every error is reported by one write to the error stream, after what
    was written before.  The text is a header line, then the lines of the
    traceback in their order and as they are, then a line feed.  The
    header does not depend on the traceback: it begins with ["ERROR "],
    goes on with the handler, nothing at all when there is none, and ends
    with a line feed. *)
Theorem error_report_is_one_write
    (error_type value : string) (handler : option string) :
  exists header,
    (exists rest, header = String.append "ERROR " rest)
    /\ (handler = None -> exists rest, header = String.append "ERROR  (" rest)
    /\ (exists line, header = String.append line nl)
    /\ forall traceback stderr,
         _on_error error_type value traceback handler stderr
         = stderr
           ++ [String.append header
                 (String.append (String.concat EmptyString traceback) nl)].
Proof.
  exists (String.append "ERROR "
            (String.append
               match handler with None => EmptyString | Some r => r end
               (String.append " ("
                  (String.append error_type
                     (String.append "): " (String.append value nl)))))).
  repeat apply conj.
  - eexists. reflexivity.
  - intros ->. eexists. reflexivity.
  - exists (String.append "ERROR "
              (String.append
                 match handler with None => EmptyString | Some r => r end
                 (String.append " ("
                    (String.append error_type
                       (String.append "): " value))))).
    now rewrite !append_assoc.
  - intros traceback stderr. unfold _on_error. cbv zeta. f_equal. f_equal.
    etransitivity; [exact (concat_cons _ (traceback ++ [nl]))|].
    now rewrite concat_snoc.
Qed.

End FallBackErrorHandlerProps.
